(** * Q DSP library: special effects processors ([q/sfx.hpp])

    A shallow embedding of the per-sample processors of [sfx.hpp]
    ([fast_downsample], [dynamic_smoother], [zero_cross], [peak], [onset])
    together with the properties their specification states.

    Numeric model.
    - [float] is IEEE-754 binary32 and [double] is binary64, both taken from
      the standard library's [SpecFloat] (round to nearest, ties to even,
      with signed zeros, infinities and NaN).
    - [std::size_t] is a 64-bit unsigned integer: a [Z] reduced modulo
      [2^64] after every increment.
    - The sample type [T] of [fast_downsample] ranges over the native
      integer types; arithmetic follows the usual integer promotions and
      two's complement wrap-around. *)

From Stdlib Require Import ZArith List Bool Lia.
From Stdlib Require Import Floats.SpecFloat.
Import ListNotations.

Local Open Scope Z_scope.

(** ** Native integer types *)

Module Int.

Inductive int_type :=
| uint8_t | int8_t | uint16_t | int16_t
| uint32_t | int32_t | uint64_t | int64_t.

Definition bits (t : int_type) : Z :=
  match t with
  | uint8_t | int8_t => 8
  | uint16_t | int16_t => 16
  | uint32_t | int32_t => 32
  | uint64_t | int64_t => 64
  end.

Definition is_signed (t : int_type) : bool :=
  match t with
  | int8_t | int16_t | int32_t | int64_t => true
  | _ => false
  end.

Definition min_value (t : int_type) : Z :=
  if is_signed t then - 2 ^ (bits t - 1) else 0.

Definition max_value (t : int_type) : Z :=
  if is_signed t then 2 ^ (bits t - 1) - 1 else 2 ^ bits t - 1.

Definition in_range (t : int_type) (z : Z) : Prop :=
  min_value t <= z <= max_value t.

Definition in_rangeb (t : int_type) (z : Z) : bool :=
  (min_value t <=? z) && (z <=? max_value t).

(** Conversion of an integer value to type [t]: reduction modulo
    [2^bits], into the signed or the unsigned window. *)
Definition wrap (t : int_type) (z : Z) : Z :=
  if is_signed t
  then (z + 2 ^ (bits t - 1)) mod 2 ^ bits t - 2 ^ (bits t - 1)
  else z mod 2 ^ bits t.

(** Integer promotion: operands narrower than [int] are computed as
    [int]; the others keep their type. *)
Definition promote (t : int_type) : int_type :=
  match t with
  | uint8_t | int8_t | uint16_t | int16_t => int32_t
  | _ => t
  end.

(** [a + b] on operands of type [t]. *)
Definition add (t : int_type) (a b : Z) : Z := wrap (promote t) (a + b).

(** [a >> n] on an operand of type [t] (arithmetic shift). *)
Definition shr (t : int_type) (a n : Z) : Z := wrap (promote t) (Z.shiftr a n).

End Int.

(** ** fast_downsample *)

Module fast_downsample.
Import Int.

Section WithSampleType.
(** The template parameter. *)
Variable T : int_type.

(** [T x = 0.0f;] *)
Record t := mk { x : Z }.

Definition init : t := mk 0.

(** [T operator()(T s1, T s2)]: the result and the updated object. *)
Definition call (st : t) (s1 s2 : Z) : Z * t :=
  let out := add T (x st) (shr T s1 1) in
  let x' := wrap T (shr T s2 2) in
  (wrap T (add T out x'), mk x').

(** Feeding a list of sample pairs; outputs in call order. *)
Fixpoint run (st : t) (l : list (Z * Z)) : list Z * t :=
  match l with
  | [] => ([], st)
  | (s1, s2) :: l' =>
      let '(o, st1) := call st s1 s2 in
      let '(os, st2) := run st1 l' in
      (o :: os, st2)
  end.

Definition pairs_in_range (l : list (Z * Z)) : Prop :=
  Forall (fun p => in_range T (fst p) /\ in_range T (snd p)) l.

(** The carried remainder is always a quarter of a sample. *)
Definition carried (st : t) : Prop :=
  exists s, in_range T s /\ x st = Z.shiftr s 2.

End WithSampleType.

End fast_downsample.

(** ** Floating-point types *)

(** Operations shared by both formats. *)
Module FP.

Definition float := spec_float.

Definition opp : float -> float := SFopp.
Definition abs : float -> float := SFabs.

(** [a < b]; false as soon as one side is NaN. *)
Definition ltb : float -> float -> bool := SFltb.
Definition leb : float -> float -> bool := SFleb.
Definition eqb : float -> float -> bool := SFeqb.

Definition is_nan (a : float) : bool :=
  match a with S754_nan => true | _ => false end.

(** Neither NaN nor an infinity. *)
Definition is_finite (a : float) : bool :=
  match a with S754_zero _ | S754_finite _ _ _ => true | _ => false end.

(** [o] is [v], except that a [v] of [-0] may have come back as [+0]. *)
Definition stays (v o : float) : Prop :=
  o = v \/ (v = S754_zero true /\ o = S754_zero false).

(** [std::min(a, b)], which is [(b < a) ? b : a]. *)
Definition min (a b : float) : float := if ltb b a then b else a.

(** The integer part of a finite value (rounding toward zero). *)
Definition trunc (a : float) : option Z :=
  match a with
  | S754_zero _ => Some 0
  | S754_finite s m e =>
      Some (cond_Zopp s (if 0 <=? e then Z.shiftl (Zpos m) e
                         else Z.shiftr (Zpos m) (- e)))
  | _ => None
  end.

(** The order on finite values of one sign: lexicographic on exponent
    and mantissa. *)
Definition lex_compare (e1 : Z) (m1 : positive) (e2 : Z) (m2 : positive)
  : comparison :=
  match e1 ?= e2 with
  | Eq => (m1 ?= m2)%positive
  | c => c
  end.

(** The last step of rounding to nearest in a format of precision
    [prec] and largest exponent [emax]: the rounded mantissa [m2] at
    exponent [e1] is renormalised, and overflows to infinity. *)
Definition round_final (prec emax : Z) (s : bool) (m2 e1 : Z) : float :=
  let n2 := Z.max 0 (fexp prec emax (Zdigits2 m2 + e1) - e1) in
  match m2 / 2 ^ n2 with
  | Z0 => S754_zero s
  | Zpos m3 =>
      if e1 + n2 <=? emax - prec then S754_finite s m3 (e1 + n2)
      else S754_infinity s
  | Zneg _ => S754_nan
  end.

End FP.

(** [float]: binary32. *)
Module F32.
Include FP.

Definition prec : Z := 24.
Definition emax : Z := 128.

Definition add : float -> float -> float := SFadd prec emax.
Definition sub : float -> float -> float := SFsub prec emax.
Definition mul : float -> float -> float := SFmul prec emax.
Definition div : float -> float -> float := SFdiv prec emax.

Definition valid : float -> bool := valid_binary prec emax.

Definition of_Z (z : Z) : float := binary_normalize prec emax z 0 false.

(** Literals used by the source. *)
Definition zero : float := S754_zero false.
Definition one : float := Eval vm_compute in of_Z 1.
Definition two : float := Eval vm_compute in of_Z 2.
Definition four : float := Eval vm_compute in of_Z 4.
Definition half : float := Eval vm_compute in div (of_Z 1) (of_Z 2).
(** [0.8f] and [0.005f]: the decimal literals rounded to binary32. *)
Definition lit_0_8 : float := Eval vm_compute in div (of_Z 4) (of_Z 5).
Definition lit_0_005 : float := Eval vm_compute in div (of_Z 1) (of_Z 200).

End F32.

(** [double]: binary64. *)
Module F64.
Include FP.

Definition prec : Z := 53.
Definition emax : Z := 1024.

Definition add : float -> float -> float := SFadd prec emax.
Definition sub : float -> float -> float := SFsub prec emax.
Definition mul : float -> float -> float := SFmul prec emax.
Definition div : float -> float -> float := SFdiv prec emax.

Definition valid : float -> bool := valid_binary prec emax.

Definition of_Z (z : Z) : float := binary_normalize prec emax z 0 false.

(** Widening [float] to [double]: exact, the mantissa is realigned. *)
Definition of_float (a : F32.float) : float :=
  match a with
  | S754_finite s m e => binary_round prec emax s m e
  | _ => a
  end.

(** Narrowing [double] to [float]: rounds to nearest. *)
Definition to_float (a : float) : F32.float :=
  match a with
  | S754_finite s m e => binary_round F32.prec F32.emax s m e
  | _ => a
  end.

(** Conversion to [std::size_t]: the integer part when it fits in 64
    bits; otherwise the conversion has no defined result. *)
Definition to_size_t (a : float) : option Z :=
  match trunc a with
  | Some z => if (0 <=? z) && (z <? 2 ^ 64) then Some z else None
  | None => None
  end.

End F64.

(** [std::size_t] arithmetic. *)
Module size_t.
Definition modulus : Z := 2 ^ 64.
Definition in_range (z : Z) : Prop := 0 <= z < modulus.
(** [n++] stores this value. *)
Definition succ (z : Z) : Z := (z + 1) mod modulus.
End size_t.

(** ** dynamic_smoother *)

Module dynamic_smoother.
Import F32.

(** [float sense, wc, g0; float low1 = 0.0f; float low2 = 0.0f;] *)
Record t := mk {
  sense : float;
  wc : float;
  g0 : float;
  low1 : float;
  low2 : float
}.

Section WithMath.
(** [std::tan] of [<cmath>] on [double], and the [double] constant
    [pi] that [q/support.hpp] declares. *)
Variable tan : F64.float -> F64.float.
Variable pi : F64.float.

(** The value the constructor and [base_frequency] give [wc]:
    [double(base) / sps], stored in a [float]. *)
Definition wc_of (base : F64.float) (sps : Z) : float :=
  F64.to_float (F64.div base (F64.of_Z sps)).

(** The value both give [g0] from the stored [wc]:
    [gc = std::tan(pi * wc); g0 = 2.0f * gc / (1.0f + gc)]. *)
Definition g0_of (wc : float) : float :=
  let gc := tan (F64.mul pi (F64.of_float wc)) in
  F64.to_float
    (F64.div (F64.mul (F64.of_float two) gc)
             (F64.add (F64.of_float one) gc)).

(** [dynamic_smoother(frequency base, float sensitivity, std::uint32_t sps)] *)
Definition make (base : F64.float) (sensitivity : float) (sps : Z) : t :=
  let sense := mul sensitivity four in
  let wc := wc_of base sps in
  mk sense wc (g0_of wc) zero zero.

(** [dynamic_smoother(frequency base, std::uint32_t sps)] *)
Definition make_default (base : F64.float) (sps : Z) : t :=
  make base half sps.

(** [void base_frequency(frequency base, std::uint32_t sps)] *)
Definition base_frequency (st : t) (base : F64.float) (sps : Z) : t :=
  let wc := wc_of base sps in
  mk (sense st) wc (g0_of wc) (low1 st) (low2 st).
End WithMath.

(** [bandz] and [g] of [operator()], as functions of the object the
    call starts from; [unclamped] is the first argument of [std::min]. *)
Definition bandz (st : t) : float := sub (low1 st) (low2 st).

Definition unclamped (st : t) : float :=
  add (g0 st) (mul (sense st) (abs (bandz st))).

Definition gain (st : t) : float := min (unclamped st) one.

(** [float operator()(float s)] *)
Definition call (st : t) (s : float) : float * t :=
  let lowlz := low1 st in
  let low2z := low2 st in
  let bandz := sub lowlz low2z in
  let g := min (add (g0 st) (mul (sense st) (abs bandz))) one in
  let low1' := add lowlz (mul g (sub s lowlz)) in
  let low2' := add low2z (mul g (sub low1' low2z)) in
  (low2z, mk (sense st) (wc st) (g0 st) low1' low2').

(** Outputs of successive calls, and the object left behind. *)
Fixpoint run (st : t) (l : list float) : list float * t :=
  match l with
  | [] => ([], st)
  | s :: l' =>
      let '(o, st1) := call st s in
      let '(os, st2) := run st1 l' in
      (o :: os, st2)
  end.

(** The object after the calls alone. *)
Definition after (st : t) (l : list float) : t :=
  fold_left (fun a s => snd (call a s)) l st.

End dynamic_smoother.

(** ** dynamic_lowpass *)

Module dynamic_lowpass.
Import F32.

(** [float y = 0.0f;] *)
Record t := mk { y : float }.

Definition init : t := mk zero.

(** [float operator()(float s, float a)]: [return y += a * (s - y);] *)
Definition call (st : t) (s a : float) : float * t :=
  let y' := add (y st) (mul a (sub s (y st))) in
  (y', mk y').

(** [float operator()() const] *)
Definition get (st : t) : float := y st.

(** [dynamic_lowpass& operator=(float y_)] *)
Definition assign (st : t) (y_ : float) : t := mk y_.

(** Outputs of successive calls on (sample, coefficient) pairs. *)
Fixpoint run (st : t) (l : list (float * float)) : list float * t :=
  match l with
  | [] => ([], st)
  | (s, a) :: l' =>
      let '(o, st1) := call st s a in
      let '(os, st2) := run st1 l' in
      (o :: os, st2)
  end.

End dynamic_lowpass.

(** ** zero_cross *)

Module zero_cross.
Import F32.

(** [float const _hysteresis; std::size_t const _min_samples;
     bool _state = 0; std::size_t _count = 0;] *)
Record t := mk {
  hysteresis : float;
  min_samples : Z;
  state : bool;
  count : Z
}.

(** [zero_cross(float hysteresis, period min_period, std::uint32_t sps)].
    [_min_samples] is [double(min_period) * sps] converted to
    [std::size_t]; there is no object when that conversion is undefined. *)
Definition make (hysteresis : float) (min_period : F64.float) (sps : Z)
  : option t :=
  match F64.to_size_t (F64.mul min_period (F64.of_Z sps)) with
  | Some n => Some (mk hysteresis n false 0)
  | None => None
  end.

(** Modelled from the spec: [frequency::period()], declared outside
    [sfx.hpp]; the spec gives the conversion as [period = 1/frequency]. *)
Definition period_of (freq : F64.float) : F64.float :=
  F64.div (F64.of_Z 1) freq.

(** [zero_cross(float hysteresis, frequency max_freq, std::uint32_t sps)] *)
Definition make_freq (hysteresis : float) (max_freq : F64.float) (sps : Z)
  : option t :=
  make hysteresis (period_of max_freq) sps.

(** The [bool] state as the [float] that [operator()] returns. *)
Definition of_bool (b : bool) : float := if b then one else zero.

(** [float operator()(float s)] *)
Definition call (st : t) (s : float) : float * t :=
  let c := count st in
  let st1 := mk (hysteresis st) (min_samples st) (state st) (size_t.succ c) in
  if c <? min_samples st then (of_bool (state st1), st1)
  else if ltb (hysteresis st1) s && negb (state st1) then
    (of_bool true, mk (hysteresis st1) (min_samples st1) true 0)
  else if ltb s (opp (hysteresis st1)) && state st1 then
    (of_bool false, mk (hysteresis st1) (min_samples st1) false 0)
  else (of_bool (state st1), st1).

(** [bool edge() const] *)
Definition edge (st : t) : bool := count st =? 0.

(** The object after a sequence of calls. *)
Definition after (st : t) (l : list float) : t :=
  fold_left (fun a s => snd (call a s)) l st.

(** [edge()] asked right after the call number [i] (from 0) of [l]. *)
Definition edge_after (st : t) (l : list float) (i : nat) : bool :=
  edge (after st (firstn (S i) l)).

(** A sample strictly inside the hysteresis band [(-h, +h)]. *)
Definition in_band (h s : float) : bool := ltb (opp h) s && ltb s h.

(** A comparator with thresholds [+h] and [-h] that keeps its state [b]
    in between. *)
Definition schmitt (h : float) (b : bool) (s : float) : bool :=
  if ltb h s then true else if ltb s (opp h) then false else b.

End zero_cross.

(** ** peak and onset *)

Section WithSchmittTrigger.
(** [schmitt_trigger] comes from [q/fx.hpp]: a comparator object built
    from a hysteresis amount, whose call takes two samples, answers a
    [bool] and may update the object. *)
Variable schmitt_trigger : Type.
Variable schmitt_make : F32.float -> schmitt_trigger.
Variable schmitt_call :
  schmitt_trigger -> F32.float -> F32.float -> bool * schmitt_trigger.

(** [float const _droop; schmitt_trigger _cmp;] *)
Record peak := mk_peak {
  _droop : F32.float;
  _cmp : schmitt_trigger
}.

(** [peak(float droop, float hysteresis)] *)
Definition peak_make (droop hysteresis : F32.float) : peak :=
  mk_peak droop (schmitt_make hysteresis).

(** [bool operator()(float s, float env)] *)
Definition peak_call (p : peak) (s env : F32.float) : bool * peak :=
  let '(r, c) := schmitt_call (_cmp p) s (F32.mul env (_droop p)) in
  (r, mk_peak (_droop p) c).

(** [peak _pk; std::size_t const _min_samples; bool _state = 0;
     std::size_t _count = 0; float _current_peak = 0.0f;] *)
Record onset := mk_onset {
  _pk : peak;
  _min_samples : Z;
  _state : bool;
  _count : Z;
  _current_peak : F32.float
}.

Definition onset_droop : F32.float := F32.lit_0_8.
Definition onset_hysteresis : F32.float := F32.lit_0_005.

(** The object with [_min_samples] already converted. *)
Definition onset_init (min_samples : Z) : onset :=
  mk_onset (peak_make onset_droop onset_hysteresis) min_samples false 0 F32.zero.

(** [onset(period min_period, std::uint32_t sps)] *)
Definition onset_make (min_period : F64.float) (sps : Z) : option onset :=
  match F64.to_size_t (F64.mul min_period (F64.of_Z sps)) with
  | Some n => Some (onset_init n)
  | None => None
  end.

(** [bool operator()(float s, float env)] *)
Definition onset_call (o : onset) (s env : F32.float) : bool * onset :=
  let c := _count o in
  let o1 := mk_onset (_pk o) (_min_samples o) (_state o) (size_t.succ c)
                     (_current_peak o) in
  if c <? _min_samples o then (_state o1, o1)
  else
    let '(pk, p') := peak_call (_pk o1) s env in
    let o2 := mk_onset p' (_min_samples o1) (_state o1) (_count o1)
                       (_current_peak o1) in
    if negb (_state o2) && pk then
      if F32.ltb (_current_peak o2) s then
        (true, mk_onset p' (_min_samples o2) true 0 s)
      else (_state o2, o2)
    else if _state o2 && negb pk then
      (false, mk_onset p' (_min_samples o2) false 0 (_current_peak o2))
    else (_state o2, o2).

(** [float peak_val() const] *)
Definition onset_peak_val (o : onset) : F32.float := _current_peak o.

(** [void reset()] *)
Definition onset_reset (o : onset) : onset :=
  mk_onset (_pk o) (_min_samples o) (_state o) (_count o) F32.zero.

(** The operations a client can apply to an [onset]. *)
Inductive onset_op :=
| Call (s env : F32.float)
| Reset
| PeakVal.

Definition onset_step (o : onset) (op : onset_op) : onset :=
  match op with
  | Call s env => snd (onset_call o s env)
  | Reset => onset_reset o
  | PeakVal => o
  end.

Definition onset_after (o : onset) (ops : list onset_op) : onset :=
  fold_left onset_step ops o.

(** What the latch holds on an object driven through its operations:
    [+0] or a value above it. *)
Definition onset_latch_ok (o : onset) : Prop :=
  _current_peak o = F32.zero \/ F32.ltb F32.zero (_current_peak o) = true.

End WithSchmittTrigger.

Arguments _droop {schmitt_trigger} _.
Arguments _cmp {schmitt_trigger} _.
Arguments _pk {schmitt_trigger} _.
Arguments _min_samples {schmitt_trigger} _.
Arguments _state {schmitt_trigger} _.
Arguments _count {schmitt_trigger} _.
Arguments _current_peak {schmitt_trigger} _.
Arguments onset_call {schmitt_trigger} _ _ _ _.
Arguments onset_reset {schmitt_trigger} _.
Arguments onset_peak_val {schmitt_trigger} _.
Arguments onset_step {schmitt_trigger} _ _ _.
Arguments onset_after {schmitt_trigger} _ _ _.
Arguments onset_latch_ok {schmitt_trigger} _.

(** Modelled from the spec: the comparator of [q/fx.hpp], which the spec
    describes as a hysteretic boolean comparator with two thresholds that
    retains its last state.  It turns on when the first sample exceeds the
    second by more than the hysteresis, and off when it falls below the
    second by more than the hysteresis. *)
Module schmitt_trigger.
Record t := mk { hysteresis : F32.float; y : bool }.

Definition make (h : F32.float) : t := mk h false.

Definition call (c : t) (pos neg : F32.float) : bool * t :=
  if negb (y c) && F32.ltb (F32.add neg (hysteresis c)) pos then
    (true, mk (hysteresis c) true)
  else if y c && F32.ltb pos (F32.sub neg (hysteresis c)) then
    (false, mk (hysteresis c) false)
  else (y c, c).
End schmitt_trigger.

(** * Properties *)

(** ** Native integers *)

Lemma in_rangeb_spec t z : Int.in_rangeb t z = true <-> Int.in_range t z.
Proof.
  unfold Int.in_rangeb, Int.in_range.
  rewrite andb_true_iff, !Z.leb_le. tauto.
Qed.

Lemma wrap_in_range t z : Int.in_range t z -> Int.wrap t z = z.
Proof.
  unfold Int.in_range, Int.wrap, Int.min_value, Int.max_value.
  destruct t; cbn [Int.is_signed Int.bits]; intros H.
  all: try (apply Z.mod_small; lia).
  all: rewrite Z.mod_small; lia.
Qed.

Lemma in_range_promote t z : Int.in_range t z -> Int.in_range (Int.promote t) z.
Proof.
  unfold Int.in_range, Int.min_value, Int.max_value.
  destruct t; cbn [Int.promote Int.is_signed Int.bits]; lia.
Qed.

Lemma shiftr_1_div z : Z.shiftr z 1 = z / 2.
Proof. now rewrite Z.shiftr_div_pow2 by lia. Qed.

Lemma shiftr_2_div z : Z.shiftr z 2 = z / 4.
Proof. now rewrite Z.shiftr_div_pow2 by lia. Qed.

(** Halving or quartering a value of type [t] stays in [t]. *)
Lemma in_range_div t z d :
  Int.in_range t z -> 1 <= d -> Int.in_range t (z / d).
Proof.
  unfold Int.in_range. intros [Hlo Hhi] Hd.
  assert (Hmin : Int.min_value t <= 0)
    by (unfold Int.min_value; destruct t; cbn; lia).
  assert (Hmax : 0 <= Int.max_value t)
    by (unfold Int.max_value; destruct t; cbn; lia).
  split.
  - apply Z.div_le_lower_bound; [lia|]. nia.
  - destruct (Z_le_gt_dec 0 z) as [Hz|Hz].
    + transitivity z; [|lia]. apply Z.div_le_upper_bound; [lia|]. nia.
    + assert (z / d < 0) by (apply Z.div_lt_upper_bound; lia). lia.
Qed.

(** ** fast_downsample *)

Example fast_downsample_uint16_max :
  fst (fast_downsample.run Int.uint16_t fast_downsample.init
         [(65535, 65535); (65535, 65535); (8, 4)]) = [49150; 65533; 16388].
Proof. reflexivity. Qed.

Example fast_downsample_int16_negative :
  fst (fast_downsample.run Int.int16_t fast_downsample.init
         [(-1, -1); (-1, -1); (-32768, -32768)]) = [-2; -3; -24577].
Proof. reflexivity. Qed.

Lemma fast_downsample_carried_init T : fast_downsample.carried T fast_downsample.init.
Proof.
  exists 0. split; [|reflexivity].
  unfold Int.in_range, Int.min_value, Int.max_value; destruct T; cbn; lia.
Qed.

(** The sum of a quarter, a half and a quarter of three samples needs no
    more bits than a sample: none of the conversions of [operator()]
    changes a value. *)
Lemma fast_downsample_no_wrap T s s1 s2 :
  Int.in_range T s -> Int.in_range T s1 -> Int.in_range T s2 ->
  Int.in_range T (s / 4 + s1 / 2) /\ Int.in_range T (s / 4 + s1 / 2 + s2 / 4).
Proof.
  unfold Int.in_range, Int.min_value, Int.max_value.
  destruct T; cbn [Int.is_signed Int.bits]; intros H H1 H2;
    Z.div_mod_to_equations; lia.
Qed.

Lemma fast_downsample_call_exact T st s1 s2 :
  fast_downsample.carried T st -> Int.in_range T s1 -> Int.in_range T s2 ->
  fast_downsample.call T st s1 s2 =
    (fast_downsample.x st + s1 / 2 + s2 / 4, fast_downsample.mk (s2 / 4)).
Proof.
  intros (s & Hs & Hx) H1 H2.
  destruct (fast_downsample_no_wrap T s s1 s2 Hs H1 H2) as [Ha Hb].
  unfold fast_downsample.call, Int.add, Int.shr.
  rewrite Hx, !shiftr_1_div, !shiftr_2_div.
  assert (Hh : Int.in_range T (s1 / 2)) by (apply in_range_div; [assumption|lia]).
  assert (Hq : Int.in_range T (s2 / 4)) by (apply in_range_div; [assumption|lia]).
  rewrite (wrap_in_range (Int.promote T) (s1 / 2)) by now apply in_range_promote.
  rewrite (wrap_in_range (Int.promote T) (s2 / 4)) by now apply in_range_promote.
  rewrite (wrap_in_range T (s2 / 4)) by assumption.
  rewrite (wrap_in_range (Int.promote T) (s / 4 + s1 / 2)) by now apply in_range_promote.
  rewrite (wrap_in_range (Int.promote T) (s / 4 + s1 / 2 + s2 / 4)) by now apply in_range_promote.
  rewrite (wrap_in_range T) by assumption.
  reflexivity.
Qed.

Lemma fast_downsample_call_carried T st s1 s2 :
  fast_downsample.carried T st -> Int.in_range T s1 -> Int.in_range T s2 ->
  fast_downsample.carried T (snd (fast_downsample.call T st s1 s2)).
Proof.
  intros Hc H1 H2. rewrite fast_downsample_call_exact by assumption.
  exists s2. split; [assumption|]. cbn. symmetry. apply shiftr_2_div.
Qed.

Lemma fast_downsample_run_carried T l : forall st,
  fast_downsample.carried T st -> fast_downsample.pairs_in_range T l ->
  fast_downsample.carried T (snd (fast_downsample.run T st l)).
Proof.
  induction l as [|[s1 s2] l IH]; intros st Hc Hl; [exact Hc|].
  inversion Hl as [|? ? [H1 H2] Hl']; subst. cbn in H1, H2.
  cbn [fast_downsample.run].
  pose proof (fast_downsample_call_carried T st s1 s2 Hc H1 H2) as Hc'.
  destruct (fast_downsample.call T st s1 s2) as [o st1]. cbn in Hc'.
  specialize (IH st1 Hc' Hl').
  destruct (fast_downsample.run T st1 l) as [os st2]. exact IH.
Qed.

(** C7: on every call of [fast_downsample::operator()(s1, s2)] made on an
    object that started from its initial state (remainder zero), the
    result is the carried remainder plus half of [s1] plus a quarter of
    [s2], and the new remainder is a quarter of [s2].  Half and quarter
    are the right shifts by one and two bits, that is the floor of the
    division by 2 and by 4, and no conversion wraps. *)
Theorem fast_downsample_call_spec (T : Int.int_type) (l : list (Z * Z)) (s1 s2 : Z) :
  fast_downsample.pairs_in_range T l ->
  Int.in_range T s1 -> Int.in_range T s2 ->
  let st := snd (fast_downsample.run T fast_downsample.init l) in
  fast_downsample.x fast_downsample.init = 0 /\
  fast_downsample.call T st s1 s2 =
    (fast_downsample.x st + Z.shiftr s1 1 + Z.shiftr s2 2,
     fast_downsample.mk (Z.shiftr s2 2)) /\
  Z.shiftr s1 1 = s1 / 2 /\ Z.shiftr s2 2 = s2 / 4.
Proof.
  intros Hl H1 H2 st. split; [reflexivity|].
  rewrite !shiftr_1_div, !shiftr_2_div. split; [|split; reflexivity].
  apply fast_downsample_call_exact; try assumption.
  apply fast_downsample_run_carried; [apply fast_downsample_carried_init|assumption].
Qed.

Lemma fast_downsample_call_spec_witness :
  fast_downsample.call Int.uint16_t
    (snd (fast_downsample.run Int.uint16_t fast_downsample.init [(1000, 2001)]))
    65535 65535
  = (500 + 32767 + 16383, fast_downsample.mk 16383).
Proof.
  pose proof (fast_downsample_call_spec Int.uint16_t [(1000, 2001)] 65535 65535) as H.
  cbv zeta in H.
  refine (proj1 (proj2 (H _ _ _))).
  - repeat constructor; cbn; lia.
  - unfold Int.in_range; cbn; lia.
  - unfold Int.in_range; cbn; lia.
Defined.

Lemma fast_downsample_steady T v n :
  Int.in_range T v ->
  fast_downsample.run T (fast_downsample.mk (v / 4)) (repeat (v, v) n) =
    (repeat (v / 4 + v / 2 + v / 4) n, fast_downsample.mk (v / 4)).
Proof.
  intros Hv. induction n as [|n IH]; [reflexivity|].
  cbn [repeat fast_downsample.run].
  rewrite fast_downsample_call_exact; try assumption.
  - now rewrite IH.
  - exists v. split; [assumption|]. cbn. symmetry. apply shiftr_2_div.
Qed.

Lemma fast_downsample_constant_outputs T v n :
  Int.in_range T v ->
  fst (fast_downsample.run T fast_downsample.init (repeat (v, v) (S n))) =
    (v / 2 + v / 4) :: repeat (v / 4 + v / 2 + v / 4) n.
Proof.
  intros Hv. cbn [repeat fast_downsample.run].
  rewrite fast_downsample_call_exact;
    [|apply fast_downsample_carried_init|assumption|assumption].
  rewrite fast_downsample_steady by assumption. reflexivity.
Qed.

(** C3 (as amended): fed the constant pair [(v, v)], a fresh
    [fast_downsample] answers [v/2 + v/4] on the first call and the same
    value [v/4 + v/2 + v/4] on every later call, with the floor divisions
    of the right shifts.  That steady value is [v] exactly when [v] is a
    multiple of 4 and falls short of [v] by 1 or 2 otherwise. *)
Theorem fast_downsample_constant_input (T : Int.int_type) (v : Z) (n : nat) :
  Int.in_range T v ->
  let steady := v / 4 + v / 2 + v / 4 in
  fst (fast_downsample.run T fast_downsample.init (repeat (v, v) (S n))) =
    (v / 2 + v / 4) :: repeat steady n /\
  v - 2 <= steady <= v /\
  (steady = v <-> v mod 4 = 0).
Proof.
  intros Hv steady. split.
  - now apply fast_downsample_constant_outputs.
  - subst steady. split; [|split; intros H]; Z.div_mod_to_equations; lia.
Qed.

Lemma fast_downsample_constant_input_witness :
  fst (fast_downsample.run Int.int16_t fast_downsample.init (repeat (-7, -7) 4)) =
    [-6; -8; -8; -8].
Proof.
  apply (proj1 (fast_downsample_constant_input Int.int16_t (-7) 3
                  ltac:(unfold Int.in_range; cbn; lia))).
Defined.

(** C3 (as stated) fails: a [uint16_t] stream of constant value 3 produces
    1 on every call, so the output never reaches 3. *)
Lemma fast_downsample_dc_gain_counterexample :
  ~ (exists N : nat, forall n : nat, (N <= n)%nat ->
       nth n (fst (fast_downsample.run Int.uint16_t fast_downsample.init
                     (repeat (3, 3) (S n)))) 0 = 3).
Proof.
  intros [N H]. specialize (H N (Nat.le_refl N)).
  assert (Hr : Int.in_range Int.uint16_t 3) by (unfold Int.in_range; cbn; lia).
  rewrite (fast_downsample_constant_outputs Int.uint16_t 3 N Hr) in H.
  change (3 / 2 + 3 / 4) with 1 in H. change (3 / 4 + 3 / 2 + 3 / 4) with 1 in H.
  change (1 :: repeat 1 N) with (repeat 1 (S N)) in H.
  rewrite nth_repeat_lt in H by lia. discriminate.
Qed.

(** ** Floating-point comparison *)

Lemma SFcompare_finite s1 m1 e1 s2 m2 e2 :
  SFcompare (S754_finite s1 m1 e1) (S754_finite s2 m2 e2) =
  Some match s1, s2 with
       | true, false => Lt
       | false, true => Gt
       | false, false => FP.lex_compare e1 m1 e2 m2
       | true, true => CompOpp (FP.lex_compare e1 m1 e2 m2)
       end.
Proof.
  unfold FP.lex_compare, Pos.compare. cbn.
  destruct s1, s2; try reflexivity; now destruct (e1 ?= e2).
Qed.

Lemma lex_compare_antisym e1 m1 e2 m2 :
  FP.lex_compare e2 m2 e1 m1 = CompOpp (FP.lex_compare e1 m1 e2 m2).
Proof.
  unfold FP.lex_compare. rewrite (Z.compare_antisym e1 e2).
  destruct (e1 ?= e2); cbn; try reflexivity. apply Pos.compare_antisym.
Qed.

Lemma SFcompare_antisym a b c :
  SFcompare a b = Some c -> SFcompare b a = Some (CompOpp c).
Proof.
  destruct a as [sa|sa| |sa ma ea], b as [sb|sb| |sb mb eb];
    rewrite ?SFcompare_finite; cbn;
    try discriminate;
    try (destruct sa); try (destruct sb); cbn;
    intros H; inversion H; subst; clear H; try reflexivity.
  all: rewrite (lex_compare_antisym ea ma eb mb); reflexivity.
Qed.

Lemma ltb_asym a b : FP.ltb a b = true -> FP.ltb b a = false.
Proof.
  unfold FP.ltb, SFltb. destruct (SFcompare a b) as [[| |]|] eqn:E; try discriminate.
  intros _. now rewrite (SFcompare_antisym _ _ _ E).
Qed.

Lemma ltb_leb a b : FP.ltb a b = true -> FP.leb a b = true.
Proof.
  unfold FP.ltb, FP.leb, SFltb, SFleb.
  now destruct (SFcompare a b) as [[| |]|].
Qed.

(** A comparison that is not [<] is [>=], unless a NaN is involved. *)
Lemma not_ltb_leb a b :
  FP.is_nan a = false -> FP.is_nan b = false ->
  FP.ltb a b = false -> FP.leb b a = true.
Proof.
  unfold FP.ltb, FP.leb, SFltb, SFleb. intros Ha Hb.
  destruct (SFcompare a b) as [c|] eqn:E.
  - rewrite (SFcompare_antisym _ _ _ E). now destruct c.
  - destruct a, b; cbn in *; discriminate.
Qed.

Lemma leb_not_nan a b : FP.leb a b = true -> FP.is_nan a = false /\ FP.is_nan b = false.
Proof.
  unfold FP.leb, SFleb. destruct a, b; cbn; try discriminate; auto.
Qed.

Lemma ltb_not_nan a b : FP.ltb a b = true -> FP.is_nan a = false /\ FP.is_nan b = false.
Proof. intros H. apply leb_not_nan. now apply ltb_leb. Qed.

Lemma lex_compare_Lt e1 m1 e2 m2 :
  FP.lex_compare e1 m1 e2 m2 = Lt <-> e1 < e2 \/ (e1 = e2 /\ (m1 < m2)%positive).
Proof.
  unfold FP.lex_compare.
  destruct (Z.compare_spec e1 e2); destruct (Pos.compare_spec m1 m2);
    split; intros H'; try discriminate; try reflexivity; try lia.
Qed.

Lemma lex_compare_Gt e1 m1 e2 m2 :
  FP.lex_compare e1 m1 e2 m2 = Gt <-> e2 < e1 \/ (e1 = e2 /\ (m2 < m1)%positive).
Proof.
  unfold FP.lex_compare.
  destruct (Z.compare_spec e1 e2); destruct (Pos.compare_spec m1 m2);
    split; intros H'; try discriminate; try reflexivity; try lia.
Qed.

Lemma lex_compare_Eq e1 m1 e2 m2 :
  FP.lex_compare e1 m1 e2 m2 = Eq <-> e1 = e2 /\ m1 = m2.
Proof.
  unfold FP.lex_compare.
  destruct (Z.compare_spec e1 e2); destruct (Pos.compare_spec m1 m2);
    split; intros H'; try discriminate; try reflexivity; try lia.
Qed.

Lemma CompOpp_Lt c : CompOpp c = Lt <-> c = Gt.
Proof. destruct c; cbn; split; congruence. Qed.

Lemma ltb_trans a b c :
  FP.ltb a b = true -> FP.ltb b c = true -> FP.ltb a c = true.
Proof.
  unfold FP.ltb, SFltb.
  destruct a as [sa|sa| |sa ma ea], b as [sb|sb| |sb mb eb], c as [sc|sc| |sc mc ec];
    rewrite ?SFcompare_finite; cbn;
    try discriminate; try reflexivity;
    try (destruct sa); try (destruct sb); try (destruct sc); cbn;
    try discriminate; try reflexivity.
  - destruct (CompOpp (FP.lex_compare ea ma eb mb)) eqn:E1; try discriminate.
    destruct (CompOpp (FP.lex_compare eb mb ec mc)) eqn:E2; try discriminate.
    intros _ _. apply CompOpp_Lt in E1, E2.
    apply lex_compare_Gt in E1, E2.
    replace (CompOpp (FP.lex_compare ea ma ec mc)) with Lt; [reflexivity|].
    symmetry. apply CompOpp_Lt, lex_compare_Gt. lia.
  - destruct (FP.lex_compare ea ma eb mb) eqn:E1; try discriminate.
    destruct (FP.lex_compare eb mb ec mc) eqn:E2; try discriminate.
    intros _ _. apply lex_compare_Lt in E1, E2.
    replace (FP.lex_compare ea ma ec mc) with Lt; [reflexivity|].
    symmetry. apply lex_compare_Lt. lia.
Qed.

Lemma SFcompare_Eq_r a b c :
  SFcompare b c = Some Eq -> SFcompare a b = SFcompare a c.
Proof.
  destruct a as [sa|sa| |sa ma ea], b as [sb|sb| |sb mb eb], c as [sc|sc| |sc mc ec];
    rewrite ?SFcompare_finite; cbn;
    try discriminate; try reflexivity;
    try (destruct sb); try (destruct sc); cbn;
    try discriminate; try reflexivity.
  all: intros H; inversion H as [H1]; clear H;
    try (apply (f_equal CompOpp) in H1; rewrite CompOpp_involutive in H1; cbn in H1);
    apply lex_compare_Eq in H1; destruct H1; subst; reflexivity.
Qed.

Lemma ltb_leb_trans a b c :
  FP.ltb a b = true -> FP.leb b c = true -> FP.ltb a c = true.
Proof.
  intros Hab Hbc.
  destruct (FP.ltb b c) eqn:Hlt; [exact (ltb_trans _ _ _ Hab Hlt)|].
  unfold FP.ltb, FP.leb, SFltb, SFleb in *.
  destruct (SFcompare b c) as [[| |]|] eqn:E; try discriminate.
  now rewrite <- (SFcompare_Eq_r a b c E).
Qed.

(** ** Rounding to nearest *)

Lemma pow2_pos k : 0 <= k -> 0 < 2 ^ k.
Proof. intros. apply Z.pow_pos_nonneg; lia. Qed.

Lemma pow2_split a b : 0 <= a -> 0 <= b -> 2 ^ (a + b) = 2 ^ a * 2 ^ b.
Proof. intros. apply Z.pow_add_r; lia. Qed.

Lemma pow2_le a b : a <= b -> 2 ^ a <= 2 ^ b.
Proof.
  intros H. destruct (Z_lt_le_dec a 0) as [Ha|Ha].
  - rewrite (Z.pow_neg_r 2 a) by lia. apply Z.pow_nonneg. lia.
  - apply Z.pow_le_mono_r; lia.
Qed.

Lemma pow2_lt_inv a b : 0 <= b -> 2 ^ a < 2 ^ b -> a < b.
Proof.
  intros Hb H. destruct (Z_lt_le_dec a b) as [|Hle]; [assumption|].
  pose proof (pow2_le b a Hle). lia.
Qed.

(** *** Number of binary digits *)

Lemma digits2_pos_bounds p :
  2 ^ (Zpos (digits2_pos p) - 1) <= Zpos p < 2 ^ Zpos (digits2_pos p).
Proof.
  induction p as [p IH|p IH|]; cbn [digits2_pos]; [| |cbn; lia].
  all: rewrite Pos2Z.inj_succ;
    replace (Z.succ (Zpos (digits2_pos p)) - 1) with (Z.succ (Zpos (digits2_pos p) - 1)) by lia;
    rewrite !Z.pow_succ_r by lia; lia.
Qed.

Lemma Zdigits2_bounds m :
  0 < m -> 0 < Zdigits2 m /\ 2 ^ (Zdigits2 m - 1) <= m < 2 ^ Zdigits2 m.
Proof.
  destruct m as [|p|p]; try lia. intros _. cbn [Zdigits2].
  split; [lia|apply digits2_pos_bounds].
Qed.

Lemma Zdigits2_nonneg m : 0 <= Zdigits2 m.
Proof. destruct m; cbn; lia. Qed.

Lemma Zdigits2_le m k : 0 <= m -> 0 <= k -> m < 2 ^ k -> Zdigits2 m <= k.
Proof.
  intros Hm Hk H. destruct (Z.eq_dec m 0) as [->|Hne]; [cbn; lia|].
  destruct (Zdigits2_bounds m ltac:(lia)) as [Hd [Hlo _]].
  assert (2 ^ (Zdigits2 m - 1) < 2 ^ k) by lia.
  apply pow2_lt_inv in H0; lia.
Qed.

Lemma Zdigits2_ge m k : 2 ^ k <= m -> 0 <= k -> k + 1 <= Zdigits2 m.
Proof.
  intros H Hk. pose proof (pow2_pos k Hk).
  destruct (Zdigits2_bounds m ltac:(lia)) as [Hd [_ Hhi]].
  assert (2 ^ k < 2 ^ Zdigits2 m) by lia.
  apply pow2_lt_inv in H1; lia.
Qed.

Lemma Zdigits2_mono a b : 0 <= a <= b -> Zdigits2 a <= Zdigits2 b.
Proof.
  intros [Ha Hab]. destruct (Z.eq_dec b 0) as [->|Hb].
  - replace a with 0 by lia. lia.
  - destruct (Zdigits2_bounds b ltac:(lia)) as [Hd [_ Hhi]].
    apply Zdigits2_le; lia.
Qed.

(** *** Shifting right *)

Lemma shr_1_m mrs : 0 <= shr_m mrs ->
  shr_m (shr_1 mrs) = shr_m mrs / 2.
Proof.
  destruct mrs as [m r s]. cbn [shr_m]. intros Hm.
  destruct m as [|[p|p|]|p]; cbn [shr_1 shr_m]; try lia; try reflexivity.
  - rewrite Pos2Z.inj_xI. apply Z.div_unique with (r := 1); lia.
  - rewrite Pos2Z.inj_xO. apply Z.div_unique with (r := 0); lia.
Qed.

Lemma pow2_xO n : 2 ^ Zpos n~0 = 2 ^ Zpos n * 2 ^ Zpos n.
Proof. rewrite Pos2Z.inj_xO, <- pow2_split by lia. f_equal. lia. Qed.

Lemma pow2_xI n : 2 ^ Zpos n~1 = 2 * (2 ^ Zpos n * 2 ^ Zpos n).
Proof.
  rewrite Pos2Z.inj_xI, <- pow2_split by lia.
  replace (2 * Zpos n + 1) with (Z.succ (Zpos n + Zpos n)) by lia.
  now rewrite Z.pow_succ_r by lia.
Qed.

Lemma iter_shr_1_m n : forall mrs, 0 <= shr_m mrs ->
  shr_m (iter_pos shr_1 n mrs) = shr_m mrs / 2 ^ Zpos n.
Proof.
  assert (Hnn : forall x, 0 <= shr_m x -> 0 <= shr_m (shr_1 x)).
  { intros x Hx. rewrite shr_1_m by assumption. apply Z.div_pos; lia. }
  induction n as [n IH|n IH|]; intros mrs Hm; cbn [iter_pos].
  - assert (H1 : 0 <= shr_m (iter_pos shr_1 n (shr_1 mrs))).
    { rewrite IH by auto. apply Z.div_pos; [auto|apply pow2_pos; lia]. }
    rewrite IH by assumption. rewrite IH by auto. rewrite shr_1_m by assumption.
    rewrite !Z.div_div by (try apply pow2_pos; lia).
    now rewrite pow2_xI.
  - assert (H1 : 0 <= shr_m (iter_pos shr_1 n mrs)).
    { rewrite IH by auto. apply Z.div_pos; [auto|apply pow2_pos; lia]. }
    rewrite IH by assumption. rewrite IH by auto.
    rewrite !Z.div_div by (try apply pow2_pos; lia).
    now rewrite pow2_xO.
  - rewrite shr_1_m by assumption. reflexivity.
Qed.

Lemma shr_spec mrs e n : 0 <= shr_m mrs ->
  shr_m (fst (shr mrs e n)) = shr_m mrs / 2 ^ Z.max 0 n /\
  snd (shr mrs e n) = e + Z.max 0 n.
Proof.
  intros Hm. destruct n as [|p|p]; cbn [shr fst snd].
  - cbn. rewrite Z.div_1_r. split; [reflexivity|lia].
  - rewrite iter_shr_1_m by assumption. split; [reflexivity|lia].
  - cbn. rewrite Z.div_1_r. split; [reflexivity|lia].
Qed.

(** With no shift to make, the record and its location are kept. *)
Lemma shr_exact m e n : n <= 0 ->
  shr (shr_record_of_loc m loc_Exact) e n = (Build_shr_record m false false, e).
Proof. destruct n; cbn; try lia; reflexivity. Qed.

Lemma shr_record_of_loc_m m l : shr_m (shr_record_of_loc m l) = m.
Proof. now destruct l as [|[| |]]. Qed.

Lemma round_nearest_even_cases m l :
  round_nearest_even m l = m \/ round_nearest_even m l = m + 1.
Proof.
  destruct l as [|[| |]]; cbn; auto. destruct (Z.even m); auto.
Qed.

Section Rounding.
Variables prec emax : Z.
Hypothesis Hprec : 0 < prec.

Local Abbreviation fexp := (SpecFloat.fexp prec emax).
Local Abbreviation emin := (SpecFloat.emin prec emax).

Lemma fexp_mono a b : a <= b -> fexp a <= fexp b.
Proof. unfold SpecFloat.fexp. lia. Qed.

Lemma fexp_ge_emin a : emin <= fexp a.
Proof. unfold SpecFloat.fexp. lia. Qed.

(** [binary_round_aux] on an exact input: truncate to the target
    exponent, round to one of the two neighbours, renormalise. *)
Lemma binary_round_aux_exact s m e :
  0 <= m ->
  let n1 := Z.max 0 (fexp (Zdigits2 m + e) - e) in
  exists m2,
    (m2 = m / 2 ^ n1 \/ m2 = m / 2 ^ n1 + 1) /\
    (n1 = 0 -> m2 = m) /\
    binary_round_aux prec emax s m e loc_Exact = FP.round_final prec emax s m2 (e + n1).
Proof.
  intros Hm n1. unfold binary_round_aux, shr_fexp.
  set (n := fexp (Zdigits2 m + e) - e) in *.
  pose proof (shr_spec (shr_record_of_loc m loc_Exact) e n) as Hs.
  rewrite shr_record_of_loc_m in Hs. specialize (Hs Hm). fold n1 in Hs.
  destruct Hs as [Hs1 Hs2].
  destruct (shr (shr_record_of_loc m loc_Exact) e n) as [mrs' e'] eqn:E1.
  cbn [fst snd] in Hs1, Hs2.
  set (m2 := round_nearest_even (shr_m mrs') (loc_of_shr_record mrs')).
  exists m2. split; [|split].
  - subst m2. rewrite <- Hs1. apply round_nearest_even_cases.
  - intros Hn. assert (Hle : n <= 0) by lia.
    rewrite (shr_exact m e n Hle) in E1. inversion E1; subst mrs' e'.
    reflexivity.
  - assert (Hm2 : 0 <= m2).
    { assert (0 <= m / 2 ^ n1) by (apply Z.div_pos; [lia|apply pow2_pos; lia]).
      subst m2. destruct (round_nearest_even_cases (shr_m mrs') (loc_of_shr_record mrs'));
        lia. }
    pose proof (shr_spec (shr_record_of_loc m2 loc_Exact) e'
                  (fexp (Zdigits2 m2 + e') - e')) as Hs'.
    rewrite shr_record_of_loc_m in Hs'. specialize (Hs' Hm2).
    destruct Hs' as [Hs1' Hs2'].
    destruct (shr (shr_record_of_loc m2 loc_Exact) e'
                (fexp (Zdigits2 m2 + e') - e')) as [mrs'' e''] eqn:E2.
    cbn [fst snd] in Hs1', Hs2'.
    unfold FP.round_final. rewrite <- Hs2. rewrite Hs1', Hs2'. reflexivity.
Qed.


Lemma fexp_small d e : d <= prec -> emin <= e -> fexp (d + e) <= e.
Proof. unfold SpecFloat.fexp. lia. Qed.

Lemma fexp_large a e : emin <= e -> e < fexp a -> fexp a = a - prec.
Proof. unfold SpecFloat.fexp. lia. Qed.

Lemma round_final_zero s e1 : FP.round_final prec emax s 0 e1 = S754_zero s.
Proof. unfold FP.round_final. now rewrite Z.div_0_l by (apply Z.pow_nonzero; lia). Qed.

(** A mantissa that already fits is kept. *)
Lemma round_final_small s m2 e1 :
  0 < m2 -> Zdigits2 m2 <= prec -> emin <= e1 -> e1 <= emax - prec ->
  exists m3, Zpos m3 = m2 /\ FP.round_final prec emax s m2 e1 = S754_finite s m3 e1.
Proof.
  intros Hm Hd He Hb. unfold FP.round_final.
  pose proof (fexp_small (Zdigits2 m2) e1 Hd He).
  replace (Z.max 0 (fexp (Zdigits2 m2 + e1) - e1)) with 0 by lia.
  rewrite Z.pow_0_r, Z.div_1_r, Z.add_0_r.
  destruct m2 as [|p|p]; try lia. exists p. split; [reflexivity|].
  apply Z.leb_le in Hb. now rewrite Hb.
Qed.

(** A positive mantissa never rounds to zero, and the exponent can only
    grow. *)
Lemma round_final_up s m2 e1 :
  0 < m2 -> emin <= e1 ->
  FP.round_final prec emax s m2 e1 = S754_infinity s \/
  exists m3 e3, FP.round_final prec emax s m2 e1 = S754_finite s m3 e3 /\
    e1 <= e3 /\ (e3 = e1 -> Zpos m3 = m2).
Proof.
  intros Hm He. unfold FP.round_final.
  set (n2 := Z.max 0 (fexp (Zdigits2 m2 + e1) - e1)).
  assert (Hq : 0 < m2 / 2 ^ n2 /\ (n2 = 0 -> m2 / 2 ^ n2 = m2)).
  { split.
    - destruct (Z.eq_dec n2 0) as [E|E].
      + rewrite E, Z.pow_0_r, Z.div_1_r. assumption.
      + assert (Hlt : e1 < fexp (Zdigits2 m2 + e1)) by lia.
        pose proof (fexp_large _ _ He Hlt) as Hf.
        assert (Hn : n2 = Zdigits2 m2 - prec) by lia.
        destruct (Zdigits2_bounds m2 Hm) as [Hd [Hlo _]].
        apply Z.div_str_pos. split; [apply pow2_pos; lia|].
        eapply Z.le_trans; [|exact Hlo]. apply pow2_le. lia.
    - intros E. now rewrite E, Z.pow_0_r, Z.div_1_r. }
  destruct Hq as [Hq1 Hq2].
  destruct (m2 / 2 ^ n2) as [|m3|m3] eqn:Em; try lia.
  destruct (e1 + n2 <=? emax - prec); [right|now left].
  exists m3, (e1 + n2). split; [reflexivity|]. split; [lia|].
  intros E. apply Hq2. lia.
Qed.

(** A mantissa that rounded up to [2^prec] is renormalised. *)
Lemma round_final_carry s e1 :
  emin <= e1 -> e1 + 1 <= emax - prec ->
  exists m3, Zpos m3 = 2 ^ (prec - 1) /\
    FP.round_final prec emax s (2 ^ prec) e1 = S754_finite s m3 (e1 + 1).
Proof.
  intros He Hb. unfold FP.round_final.
  assert (Hp : 0 < 2 ^ prec) by (apply pow2_pos; lia).
  assert (Hd : Zdigits2 (2 ^ prec) = prec + 1).
  { apply Z.le_antisymm.
    - apply Zdigits2_le; try lia.
      replace (prec + 1) with (Z.succ prec) by lia.
      rewrite Z.pow_succ_r by lia. lia.
    - apply Zdigits2_ge; lia. }
  rewrite Hd.
  replace (Z.max 0 (fexp (prec + 1 + e1) - e1)) with 1
    by (unfold SpecFloat.fexp; lia).
  replace (2 ^ prec) with (2 ^ (prec - 1) * 2 ^ 1)
    by (rewrite <- pow2_split by lia; f_equal; lia).
  rewrite Z.div_mul by lia.
  pose proof (pow2_pos (prec - 1) ltac:(lia)) as Hp1.
  destruct (2 ^ (prec - 1)) as [|m3|m3]; try lia.
  exists m3. split; [reflexivity|].
  apply Z.leb_le in Hb. now rewrite Hb.
Qed.


Lemma iter_xO m d : Zpos (Pos.iter xO m d) = Zpos m * 2 ^ Zpos d.
Proof.
  induction d as [|d IH] using Pos.peano_ind.
  - cbn. lia.
  - rewrite Pos.iter_succ, Pos2Z.inj_xO, IH, Pos2Z.inj_succ.
    rewrite Z.pow_succ_r by lia. lia.
Qed.

Lemma shl_align_keep m e e' : e <= e' -> shl_align m e e' = (m, e).
Proof.
  intros H. unfold shl_align. destruct (e' - e) eqn:E; try lia; reflexivity.
Qed.

Lemma shl_align_shift m e e' : e' < e ->
  exists m', shl_align m e e' = (m', e') /\ Zpos m' = Zpos m * 2 ^ (e - e').
Proof.
  intros H. unfold shl_align. destruct (e' - e) as [|d|d] eqn:E; try lia.
  eexists. split; [reflexivity|]. rewrite iter_xO. f_equal. f_equal. lia.
Qed.

Lemma Zdigits2_shift m k : 0 < m -> 0 <= k ->
  Zdigits2 (m * 2 ^ k) = Zdigits2 m + k.
Proof.
  intros Hm Hk. destruct (Zdigits2_bounds m Hm) as [Hd [Hlo Hhi]].
  pose proof (pow2_pos k Hk) as Hp.
  apply Z.le_antisymm.
  - apply Zdigits2_le; [nia|lia|]. rewrite pow2_split by lia. nia.
  - replace (Zdigits2 m + k) with (Zdigits2 m - 1 + k + 1) by lia.
    apply Zdigits2_ge; [|lia]. rewrite pow2_split by lia. nia.
Qed.

(** What makes [(mx, ex)] a binary float of the format. *)
Lemma bounded_inv mx ex :
  bounded prec emax mx ex = true ->
  fexp (Zdigits2 (Zpos mx) + ex) = ex /\ ex <= emax - prec /\
  emin <= ex /\ Zdigits2 (Zpos mx) <= prec /\
  (emin < ex -> Zdigits2 (Zpos mx) = prec).
Proof.
  unfold bounded, canonical_mantissa. intros H.
  apply andb_true_iff in H as [H1 H2].
  apply Z.eqb_eq in H1. apply Z.leb_le in H2. cbn [Zdigits2].
  unfold SpecFloat.fexp in *. lia.
Qed.

(** Rounding a value at or above a float of the format gives at least
    that float. *)
Lemma binary_round_ge s mx ex m e :
  bounded prec emax mx ex = true ->
  e <= ex -> Zpos mx * 2 ^ (ex - e) <= Zpos m ->
  binary_round prec emax s m e = S754_infinity s \/
  exists m3 e3, binary_round prec emax s m e = S754_finite s m3 e3 /\
    (ex < e3 \/ (e3 = ex /\ (mx <= m3)%positive)).
Proof.
  intros Hb Hee Hle.
  destruct (bounded_inv mx ex Hb) as (Hcan & Hmax & Hmin & Hdx & _).
  destruct (Zdigits2_bounds (Zpos mx) ltac:(lia)) as [Hdx0 [Hxlo Hxhi]].
  destruct (Zdigits2_bounds (Zpos m) ltac:(lia)) as [Hd0 [Hlo Hhi]].
  set (D := Zdigits2 (Zpos m)) in *. set (Dx := Zdigits2 (Zpos mx)) in *.
  pose proof (pow2_pos (ex - e) ltac:(lia)) as Hpk.
  assert (HD : Dx + ex <= D + e).
  { assert (Hge : 2 ^ (Dx - 1 + (ex - e)) <= Zpos m).
    { rewrite pow2_split by lia. nia. }
    apply Zdigits2_ge in Hge; [|lia]. fold D in Hge. lia. }
  pose proof (fexp_mono _ _ HD) as Het. rewrite Hcan in Het.
  pose proof (fexp_ge_emin (D + e)) as Hetmin.
  set (et := fexp (D + e)) in *.
  unfold binary_round. change (Zpos (digits2_pos m)) with D. fold et.
  rewrite shl_align_keep by lia.
  pose proof (binary_round_aux_exact s (Zpos m) e ltac:(lia)) as Haux.
  cbv zeta in Haux. fold D in Haux. fold et in Haux.
  replace (Z.max 0 (et - e)) with (et - e) in Haux by lia.
  replace (e + (et - e)) with et in Haux by lia.
  destruct Haux as (m2 & Hm2 & _ & ->).
  set (m1 := Zpos m / 2 ^ (et - e)) in *.
  assert (Hm1 : 0 < m1 /\ (et = ex -> Zpos mx <= m1)).
  { split.
    - destruct (Z.eq_dec et ex) as [E|E].
      + assert (Zpos mx <= m1); [|lia].
        subst m1. rewrite E. apply Z.div_le_lower_bound; lia.
      + assert (Hlt : ex < et) by lia.
        assert (Hf : et = D + e - prec)
          by (apply fexp_large with (e := ex); lia).
        subst m1. apply Z.div_str_pos. split; [apply pow2_pos; lia|].
        eapply Z.le_trans; [|exact Hlo]. apply pow2_le. lia.
    - intros E. subst m1. rewrite E. apply Z.div_le_lower_bound; lia. }
  destruct Hm1 as [Hm1 Hm1x].
  destruct (round_final_up s m2 et ltac:(lia) ltac:(lia))
    as [Hinf|(m3 & e3 & Hr & He3 & Hm3)]; [now left|right].
  exists m3, e3. split; [assumption|].
  destruct (Z.eq_dec e3 ex) as [E|E]; [right|left; lia].
  split; [assumption|].
  assert (Eet : et = ex) by lia.
  specialize (Hm3 ltac:(lia)). specialize (Hm1x Eet). lia.
Qed.


(** Rounding a positive value strictly below a float of the format gives
    at most that float. *)
Lemma binary_round_le s mx ex m e :
  bounded prec emax mx ex = true ->
  e <= ex -> Zpos m < Zpos mx * 2 ^ (ex - e) ->
  binary_round prec emax s m e = S754_zero s \/
  exists m3 e3, binary_round prec emax s m e = S754_finite s m3 e3 /\
    (e3 < ex \/ (e3 = ex /\ (m3 <= mx)%positive)).
Proof.
  intros Hb Hee Hlt.
  destruct (bounded_inv mx ex Hb) as (Hcan & Hmax & Hmin & Hdx & Hnorm).
  destruct (Zdigits2_bounds (Zpos mx) ltac:(lia)) as [Hdx0 [Hxlo Hxhi]].
  destruct (Zdigits2_bounds (Zpos m) ltac:(lia)) as [Hd0 [Hlo Hhi]].
  set (D := Zdigits2 (Zpos m)) in *. set (Dx := Zdigits2 (Zpos mx)) in *.
  pose proof (pow2_pos (ex - e) ltac:(lia)) as Hpk.
  assert (HD : D + e <= Dx + ex).
  { assert (Hub : Zpos m < 2 ^ (Dx + (ex - e))).
    { rewrite pow2_split by lia. nia. }
    apply Zdigits2_le in Hub; [|lia|lia]. fold D in Hub. lia. }
  pose proof (fexp_mono _ _ HD) as Het. rewrite Hcan in Het.
  pose proof (fexp_ge_emin (D + e)) as Hetmin.
  assert (Hetlo : D + e - prec <= fexp (D + e)) by (unfold SpecFloat.fexp; lia).
  unfold binary_round. change (Zpos (digits2_pos m)) with D.
  destruct (Z_lt_le_dec (fexp (D + e)) e) as [Hsh|Hke].
  - (* the mantissa is shifted left: the value is a float of the format *)
    destruct (shl_align_shift m e (fexp (D + e)) Hsh) as (m' & -> & Hm').
    assert (Hd' : Zdigits2 (Zpos m') + fexp (D + e) = D + e).
    { rewrite Hm', Zdigits2_shift by lia. fold D. lia. }
    pose proof (binary_round_aux_exact s (Zpos m') (fexp (D + e)) ltac:(lia)) as Haux.
    cbv zeta in Haux. rewrite Hd' in Haux.
    replace (Z.max 0 (fexp (D + e) - fexp (D + e))) with 0 in Haux by lia.
    rewrite Z.add_0_r in Haux.
    destruct Haux as (m2 & _ & Hm2 & ->). specialize (Hm2 eq_refl). subst m2.
    destruct (round_final_small s (Zpos m') (fexp (D + e)))
      as (m3 & Hm3 & ->); [lia|lia|lia|lia|].
    right. exists m3, (fexp (D + e)). split; [reflexivity|]. left. lia.
  - rewrite shl_align_keep by lia.
    set (et := fexp (D + e)) in *.
    pose proof (binary_round_aux_exact s (Zpos m) e ltac:(lia)) as Haux.
    cbv zeta in Haux. fold D in Haux. fold et in Haux.
    replace (Z.max 0 (et - e)) with (et - e) in Haux by lia.
    replace (e + (et - e)) with et in Haux by lia.
    destruct Haux as (m2 & Hm2 & _ & ->).
    set (m1 := Zpos m / 2 ^ (et - e)) in *.
    pose proof (pow2_pos (et - e) ltac:(lia)) as Hpn.
    pose proof (pow2_pos prec ltac:(lia)) as Hpp.
    assert (Hm1lo : 0 <= m1) by (apply Z.div_pos; lia).
    assert (Hm1hi : m1 < 2 ^ prec).
    { apply Z.div_lt_upper_bound; [lia|].
      rewrite <- pow2_split by lia.
      eapply Z.lt_le_trans; [exact Hhi|]. apply pow2_le. lia. }
    assert (Hm1x : et = ex -> m1 < Zpos mx).
    { intros E. subst m1. rewrite E. apply Z.div_lt_upper_bound; lia. }
    assert (Hxp : Zpos mx < 2 ^ prec).
    { eapply Z.lt_le_trans; [exact Hxhi|]. apply pow2_le. lia. }
    destruct (Z.eq_dec m2 0) as [E0|Hne0].
    { left. rewrite E0. apply round_final_zero. }
    right.
    destruct (Z.eq_dec m2 (2 ^ prec)) as [Ec|Hnc].
    + (* rounded up to the next power of two *)
      assert (Hetx : et < ex).
      { destruct (Z.eq_dec et ex) as [E|E]; [|lia]. specialize (Hm1x E). lia. }
      destruct (round_final_carry s et ltac:(lia) ltac:(lia)) as (m3 & Hm3 & Hr).
      rewrite Ec, Hr. exists m3, (et + 1). split; [reflexivity|].
      destruct (Z.eq_dec (et + 1) ex) as [E|E]; [right|left; lia].
      split; [assumption|].
      assert (HDx : Dx = prec) by (apply Hnorm; lia).
      rewrite HDx in Hxlo. lia.
    + destruct (round_final_small s m2 et) as (m3 & Hm3 & ->); try lia.
      { apply Zdigits2_le; lia. }
      exists m3, et. split; [reflexivity|].
      destruct (Z.eq_dec et ex) as [E|E]; [right|left; lia].
      split; [assumption|]. specialize (Hm1x E). lia.
Qed.

(** Rounding a non-negative mantissa is never NaN and has the sign it is
    given. *)
Lemma binary_round_aux_sign s m e :
  0 <= m ->
  binary_round_aux prec emax s m e loc_Exact = S754_zero s \/
  binary_round_aux prec emax s m e loc_Exact = S754_infinity s \/
  exists m3 e3, binary_round_aux prec emax s m e loc_Exact = S754_finite s m3 e3.
Proof.
  intros Hm.
  destruct (binary_round_aux_exact s m e Hm) as (m2 & Hm2 & _ & ->).
  set (n1 := Z.max 0 _) in *.
  assert (H0 : 0 <= m2).
  { assert (0 <= m / 2 ^ n1) by (apply Z.div_pos; [lia|apply pow2_pos; lia]).
    lia. }
  unfold FP.round_final. set (n2 := Z.max 0 _).
  assert (H3 : 0 <= m2 / 2 ^ n2) by (apply Z.div_pos; [lia|apply pow2_pos; lia]).
  destruct (m2 / 2 ^ n2) as [|m3|m3]; try lia; [now left|right].
  destruct (_ <=? _); [right; eauto|now left].
Qed.

Lemma binary_round_sign s m e :
  binary_round prec emax s m e = S754_zero s \/
  binary_round prec emax s m e = S754_infinity s \/
  exists m3 e3, binary_round prec emax s m e = S754_finite s m3 e3.
Proof.
  unfold binary_round.
  destruct (shl_align m e _) as [m' e'].
  apply binary_round_aux_sign. lia.
Qed.

Lemma shl_align_fst m e e' : e' <= e ->
  Zpos (fst (shl_align m e e')) = Zpos m * 2 ^ (e - e').
Proof.
  intros H. destruct (Z.eq_dec e' e) as [->|Hne].
  - rewrite shl_align_keep by lia. rewrite Z.sub_diag. cbn [fst]. lia.
  - destruct (shl_align_shift m e e' ltac:(lia)) as (m' & -> & Hm'). exact Hm'.
Qed.

Lemma leb_finite_lex (s : bool) mx ex m3 e3 :
  FP.lex_compare ex mx e3 m3 <> (if s then Lt else Gt) ->
  SFleb (S754_finite s mx ex) (S754_finite s m3 e3) = true.
Proof.
  unfold SFleb. rewrite SFcompare_finite.
  destruct s; destruct (FP.lex_compare ex mx e3 m3); cbn; congruence.
Qed.

(** Adding a non-negative finite value to a float of the format never
    gives less than that float. *)
Lemma SFadd_finite_pos_ge sx mx ex my ey :
  bounded prec emax mx ex = true ->
  SFleb (S754_finite sx mx ex)
        (SFadd prec emax (S754_finite sx mx ex) (S754_finite false my ey)) = true.
Proof.
  intros Hb. cbn [SFadd].
  set (ez := Z.min ex ey).
  pose proof (shl_align_fst mx ex ez ltac:(lia)) as HX.
  pose proof (shl_align_fst my ey ez ltac:(lia)) as HY.
  set (X := fst (shl_align mx ex ez)) in *.
  set (Y := fst (shl_align my ey ez)) in *.
  destruct sx; cbn [cond_Zopp].
  - (* a negative float moves toward zero or beyond *)
    destruct (Z.opp (Zpos X) + Zpos Y) as [|m|m] eqn:Em; cbn [binary_normalize].
    + reflexivity.
    + destruct (binary_round_sign false m ez) as [->|[->|(m3 & e3 & ->)]];
        reflexivity.
    + destruct (binary_round_le true mx ex m ez Hb ltac:(lia) ltac:(lia))
        as [->|(m3 & e3 & -> & Hlex)]; [reflexivity|].
      apply leb_finite_lex. intros Hc. apply lex_compare_Lt in Hc. lia.
  - destruct (Zpos X + Zpos Y) as [|m|m] eqn:Em; try lia. cbn [binary_normalize].
    destruct (binary_round_ge false mx ex m ez Hb ltac:(lia) ltac:(lia))
      as [->|(m3 & e3 & -> & Hlex)]; [reflexivity|].
    apply leb_finite_lex. intros Hc. apply lex_compare_Gt in Hc. lia.
Qed.


(** [a >= 0]: a zero of either sign, a positive finite value or [+inf]. *)
Lemma leb_zero_inv a :
  SFleb (S754_zero false) a = true ->
  (exists s, a = S754_zero s) \/ a = S754_infinity false \/
  exists m e, a = S754_finite false m e.
Proof.
  destruct a as [s|[|]| |[|] m e]; cbn; try discriminate; eauto.
Qed.

(** The product of a value [>= 0] and an absolute value is NaN or [>= 0]. *)
Lemma SFmul_abs_nonneg a b :
  SFleb (S754_zero false) a = true ->
  SFmul prec emax a (SFabs b) = S754_nan \/
  SFleb (S754_zero false) (SFmul prec emax a (SFabs b)) = true.
Proof.
  intros Ha.
  destruct (leb_zero_inv a Ha) as [[s ->]|[->|(m & e & ->)]];
    destruct b as [sb|sb| |sb mb eb]; cbn [SFabs SFmul xorb]; auto.
  destruct (binary_round_aux_sign false (Zpos (m * mb)) (e + eb) ltac:(lia))
    as [->|[->|(m3 & e3 & ->)]]; auto.
Qed.

Lemma SFleb_refl a : a <> S754_nan -> SFleb a a = true.
Proof.
  destruct a as [s|[|]| |s m e]; try reflexivity; try congruence.
  intros _. apply leb_finite_lex.
  replace (FP.lex_compare e m e m) with Eq; [now destruct s|].
  symmetry. now apply lex_compare_Eq.
Qed.

(** Adding a value [>= 0] to a float of the format gives a NaN or a value
    no smaller than the float. *)
Lemma SFadd_nonneg_ge x y :
  valid_binary prec emax x = true ->
  SFleb (S754_zero false) y = true ->
  SFadd prec emax x y <> S754_nan ->
  SFleb x (SFadd prec emax x y) = true.
Proof.
  intros Hx Hy Hn.
  destruct (leb_zero_inv y Hy) as [[s ->]|[->|(m & e & ->)]].
  - destruct x as [sx|sx| |sx mx ex]; cbn [SFadd] in *;
      try (now apply SFleb_refl); try congruence.
    now destruct sx, s.
  - destruct x as [sx|[|]| |sx mx ex]; cbn [SFadd] in *; try congruence;
      try reflexivity; try (now destruct sx).
  - destruct x as [sx|sx| |sx mx ex]; cbn [SFadd] in Hn |- *; try congruence.
    + now destruct sx.
    + now destruct sx.
    + now apply SFadd_finite_pos_ge.
Qed.

End Rounding.

(** ** dynamic_smoother *)

(** A unit step into a smoother with [g0 = 0.5] and [sense = 2]: the
    output is one call behind the second stage. *)
Example dynamic_smoother_step :
  let st := dynamic_smoother.mk F32.two F32.lit_0_005 F32.half F32.zero F32.zero in
  fst (dynamic_smoother.run st [F32.one; F32.one; F32.one]) =
    [F32.zero; S754_finite false 8388608 (-25); F32.one] /\
  dynamic_smoother.low2 (dynamic_smoother.after st [F32.one]) =
    S754_finite false 8388608 (-25) /\
  dynamic_smoother.low2 (dynamic_smoother.after st [F32.one; F32.one]) = F32.one.
Proof. repeat split. Qed.

Lemma dynamic_smoother_run_snd l : forall st,
  snd (dynamic_smoother.run st l) = dynamic_smoother.after st l.
Proof.
  induction l as [|s l IH]; intros st; [reflexivity|].
  cbn [dynamic_smoother.run]. unfold dynamic_smoother.after in *.
  cbn [fold_left]. rewrite <- IH.
  destruct (dynamic_smoother.call st s) as [o st1]. cbn [snd].
  now destruct (dynamic_smoother.run st1 l).
Qed.

Lemma dynamic_smoother_run_app l : forall st s,
  fst (dynamic_smoother.run st (l ++ [s])) =
    fst (dynamic_smoother.run st l) ++
    [fst (dynamic_smoother.call (dynamic_smoother.after st l) s)].
Proof.
  induction l as [|a l IH]; intros st s.
  - cbn. now destruct (dynamic_smoother.call st s).
  - cbn [app dynamic_smoother.run]. unfold dynamic_smoother.after.
    cbn [fold_left]. fold (dynamic_smoother.after (snd (dynamic_smoother.call st a)) l).
    destruct (dynamic_smoother.call st a) as [o st1]. cbn [snd].
    specialize (IH st1 s).
    destruct (dynamic_smoother.run st1 (l ++ [s])) as [os1 st2].
    destruct (dynamic_smoother.run st1 l) as [os st3].
    cbn [fst] in *. now rewrite IH.
Qed.

(** C1: [dynamic_smoother::operator()] returns the value [low2] held
    before the call; the bandpass term behind the gain is [low1 - low2]
    of the object as the previous call left it; and the stages are then
    updated with that gain.  Over a stream, the output for a sample is
    the [low2] left by the calls before it: one sample behind the state. *)
Theorem dynamic_smoother_output_lag (st : dynamic_smoother.t)
    (l : list F32.float) (s : F32.float) :
  let prev := dynamic_smoother.after st l in
  let g := F32.min
             (F32.add (dynamic_smoother.g0 prev)
                (F32.mul (dynamic_smoother.sense prev)
                   (F32.abs (F32.sub (dynamic_smoother.low1 prev)
                                     (dynamic_smoother.low2 prev)))))
             F32.one in
  let low1' := F32.add (dynamic_smoother.low1 prev)
                 (F32.mul g (F32.sub s (dynamic_smoother.low1 prev))) in
  let low2' := F32.add (dynamic_smoother.low2 prev)
                 (F32.mul g (F32.sub low1' (dynamic_smoother.low2 prev))) in
  fst (dynamic_smoother.call prev s) = dynamic_smoother.low2 prev /\
  fst (dynamic_smoother.run st (l ++ [s])) =
    fst (dynamic_smoother.run st l) ++ [dynamic_smoother.low2 prev] /\
  dynamic_smoother.gain prev = g /\
  dynamic_smoother.after st (l ++ [s]) =
    dynamic_smoother.mk (dynamic_smoother.sense prev) (dynamic_smoother.wc prev)
      (dynamic_smoother.g0 prev) low1' low2'.
Proof.
  cbv zeta. repeat split.
  - apply dynamic_smoother_run_app.
  - unfold dynamic_smoother.after. now rewrite fold_left_app.
Qed.

(** C9: [base_frequency(base, sps)] stores [wc = base / sps] and
    [g0 = 2 * gc / (1 + gc)] with [gc = tan(pi * wc)] of the stored [wc],
    exactly as the constructor derives them, and leaves [low1], [low2] and
    [sense] as they were. *)
Theorem dynamic_smoother_base_frequency_spec
    (tan : F64.float -> F64.float) (pi : F64.float)
    (st : dynamic_smoother.t) (base : F64.float) (sps : Z) :
  let st' := dynamic_smoother.base_frequency tan pi st base sps in
  let gc := tan (F64.mul pi (F64.of_float (dynamic_smoother.wc st'))) in
  dynamic_smoother.wc st' = F64.to_float (F64.div base (F64.of_Z sps)) /\
  dynamic_smoother.g0 st' =
    F64.to_float (F64.div (F64.mul (F64.of_float F32.two) gc)
                          (F64.add (F64.of_float F32.one) gc)) /\
  dynamic_smoother.low1 st' = dynamic_smoother.low1 st /\
  dynamic_smoother.low2 st' = dynamic_smoother.low2 st /\
  dynamic_smoother.sense st' = dynamic_smoother.sense st /\
  (forall sensitivity,
     dynamic_smoother.wc st' =
       dynamic_smoother.wc (dynamic_smoother.make tan pi base sensitivity sps) /\
     dynamic_smoother.g0 st' =
       dynamic_smoother.g0 (dynamic_smoother.make tan pi base sensitivity sps)).
Proof.
  cbv zeta. repeat split.
Qed.

(** [std::min(t, 1.0f)] is at most one unless it is NaN. *)
Lemma min_one_le t :
  FP.is_nan t = false -> FP.leb (FP.min t F32.one) F32.one = true.
Proof.
  intros Hn. unfold FP.min. destruct (FP.ltb F32.one t) eqn:E; [reflexivity|].
  apply not_ltb_leb; [reflexivity|assumption|assumption].
Qed.

Lemma is_nan_false a : FP.is_nan a = false <-> a <> S754_nan.
Proof. destruct a; cbn; split; congruence. Qed.

Lemma unclamped_ge_g0 st :
  F32.valid (dynamic_smoother.g0 st) = true ->
  F32.leb F32.zero (dynamic_smoother.sense st) = true ->
  F32.is_nan (dynamic_smoother.unclamped st) = false ->
  F32.leb (dynamic_smoother.g0 st) (dynamic_smoother.unclamped st) = true.
Proof.
  intros Hv Hs Hn. unfold dynamic_smoother.unclamped in *.
  apply is_nan_false in Hn.
  destruct (SFmul_abs_nonneg F32.prec F32.emax
              (dynamic_smoother.sense st) (dynamic_smoother.bandz st) Hs)
    as [E|H].
  - exfalso. apply Hn. unfold F32.add, F32.mul, F32.abs. rewrite E.
    now destruct (dynamic_smoother.g0 st).
  - exact (SFadd_nonneg_ge F32.prec F32.emax eq_refl _ _ Hv H Hn).
Qed.

(** C2 (as amended): as long as the unclamped value
    [g0 + sense * |low1 - low2|] is not NaN, the gain [g] of [operator()]
    is at most [1.0].  For a [g0] of the format and [sense >= 0], it is at
    least [g0] when [g0 <= 1.0]; when [g0 > 1.0] the clamp makes it
    exactly [1.0], which is below [g0]. *)
Theorem dynamic_smoother_gain_bound (st : dynamic_smoother.t) :
  F32.is_nan (dynamic_smoother.unclamped st) = false ->
  F32.valid (dynamic_smoother.g0 st) = true ->
  F32.leb F32.zero (dynamic_smoother.sense st) = true ->
  F32.leb (dynamic_smoother.gain st) F32.one = true /\
  (F32.leb (dynamic_smoother.g0 st) F32.one = true ->
     F32.leb (dynamic_smoother.g0 st) (dynamic_smoother.gain st) = true) /\
  (F32.ltb F32.one (dynamic_smoother.g0 st) = true ->
     dynamic_smoother.gain st = F32.one /\
     F32.leb (dynamic_smoother.g0 st) (dynamic_smoother.gain st) = false).
Proof.
  intros Hn Hv Hs. split; [now apply min_one_le|].
  pose proof (unclamped_ge_g0 st Hv Hs Hn) as Hge.
  unfold dynamic_smoother.gain, F32.min.
  split.
  - intros Hle. now destruct (F32.ltb F32.one (dynamic_smoother.unclamped st)).
  - intros Hgt. rewrite (ltb_leb_trans _ _ _ Hgt Hge). split; [reflexivity|].
    unfold F32.leb, F32.ltb, FP.ltb, SFleb, SFltb in *.
    destruct (SFcompare (dynamic_smoother.g0 st) F32.one) as [[| |]|] eqn:E;
      try reflexivity;
      rewrite (SFcompare_antisym _ _ _ E) in Hgt; discriminate.
Qed.

Lemma dynamic_smoother_gain_bound_witness :
  let st := dynamic_smoother.mk F32.two F32.lit_0_005 F32.half
              F32.lit_0_005 F32.zero in
  F32.leb (dynamic_smoother.g0 st) F32.one = true /\
  F32.leb (dynamic_smoother.gain st) F32.one = true /\
  F32.leb (dynamic_smoother.g0 st) (dynamic_smoother.gain st) = true.
Proof.
  cbv zeta. split; [reflexivity|].
  pose proof (dynamic_smoother_gain_bound
                (dynamic_smoother.mk F32.two F32.lit_0_005 F32.half
                   F32.lit_0_005 F32.zero)
                eq_refl eq_refl eq_refl) as [H1 [H2 _]].
  split; [exact H1|]. apply H2. reflexivity.
Defined.

(** How the constructor arrives at a base gain above one: whenever
    [std::tan] answers 3 (its value near [0.3976 * pi]), [g0] is
    [2 * 3 / (1 + 3) = 1.5]. *)
Lemma dynamic_smoother_make_g0_above_one tan pi base sps :
  tan (F64.mul pi (F64.of_float (dynamic_smoother.wc_of base sps))) = F64.of_Z 3 ->
  let st := dynamic_smoother.make tan pi base F32.half sps in
  dynamic_smoother.g0 st = F32.div (F32.of_Z 3) (F32.of_Z 2) /\
  dynamic_smoother.sense st = F32.two /\
  dynamic_smoother.low1 st = F32.zero /\ dynamic_smoother.low2 st = F32.zero.
Proof.
  intros Ht. cbv zeta. unfold dynamic_smoother.make, dynamic_smoother.g0_of.
  cbn [dynamic_smoother.g0 dynamic_smoother.sense dynamic_smoother.low1
       dynamic_smoother.low2].
  rewrite Ht. repeat split; vm_compute; reflexivity.
Qed.

(** C2 (as stated) fails: with [g0 = 1.5], [sense = 2] (sensitivity 0.5)
    and both stages at zero, [g = min(1.5 + 2 * 0, 1.0) = 1.0], which is
    below [g0]. *)
Lemma dynamic_smoother_gain_bound_counterexample :
  let st := dynamic_smoother.mk F32.two
              (F32.div (F32.of_Z 3976) (F32.of_Z 10000))
              (F32.div (F32.of_Z 3) (F32.of_Z 2)) F32.zero F32.zero in
  F32.leb F32.zero (dynamic_smoother.sense st) = true /\
  dynamic_smoother.gain st = F32.one /\
  F32.leb (dynamic_smoother.g0 st) (dynamic_smoother.gain st) = false.
Proof. cbv zeta. repeat split; vm_compute; reflexivity. Qed.

(** ** zero_cross *)

(** With a window of two samples: quiet, quiet, rising edge, quiet, quiet,
    falling edge, quiet. *)
Example zero_cross_trace :
  let zc := zero_cross.mk F32.lit_0_005 2 false 0 in
  let l := [F32.one; F32.one; F32.one;
            F32.opp F32.one; F32.opp F32.one; F32.opp F32.one; F32.one] in
  map (fun i => (zero_cross.state (zero_cross.after zc (firstn (S i) l)),
                 zero_cross.edge_after zc l i)) (seq 0 7) =
  [(false, false); (false, false); (true, true); (true, false);
   (true, false); (false, true); (false, false)].
Proof. reflexivity. Qed.

(** C10: a freshly constructed [zero_cross] reports [edge()] before any
    sample has been processed: its counter starts at zero, the value a
    transition leaves behind. *)
Theorem zero_cross_fresh_edge (h : F32.float) (min_period : F64.float) (sps : Z)
    (zc : zero_cross.t) :
  zero_cross.make h min_period sps = Some zc ->
  zero_cross.edge zc = true /\ zero_cross.count zc = 0 /\
  zero_cross.state zc = false.
Proof.
  unfold zero_cross.make.
  destruct (F64.to_size_t _); intros H; inversion H; subst. now cbn.
Qed.

Lemma zero_cross_fresh_edge_witness :
  exists zc,
    zero_cross.make F32.lit_0_005
      (F64.div (F64.of_Z 1) (F64.of_Z 1000)) 44100 = Some zc /\
    zero_cross.min_samples zc = 44 /\
    zero_cross.edge zc = true.
Proof.
  eexists. split; [vm_compute; reflexivity|]. split; [reflexivity|].
  refine (proj1 (zero_cross_fresh_edge F32.lit_0_005
                   (F64.div (F64.of_Z 1) (F64.of_Z 1000)) 44100 _ _)).
  vm_compute. reflexivity.
Defined.

Lemma zero_cross_call_frame st s :
  zero_cross.hysteresis (snd (zero_cross.call st s)) = zero_cross.hysteresis st /\
  zero_cross.min_samples (snd (zero_cross.call st s)) = zero_cross.min_samples st.
Proof.
  unfold zero_cross.call.
  repeat match goal with |- context [if ?b then _ else _] => destruct b end;
    now cbn.
Qed.

Lemma zero_cross_after_frame l : forall st,
  zero_cross.hysteresis (zero_cross.after st l) = zero_cross.hysteresis st /\
  zero_cross.min_samples (zero_cross.after st l) = zero_cross.min_samples st.
Proof.
  induction l as [|s l IH]; intros st; [now split|].
  unfold zero_cross.after in *. cbn [fold_left].
  destruct (IH (snd (zero_cross.call st s))) as [-> ->].
  apply zero_cross_call_frame.
Qed.

Lemma zero_cross_after_app st l1 l2 :
  zero_cross.after st (l1 ++ l2) = zero_cross.after (zero_cross.after st l1) l2.
Proof. unfold zero_cross.after. apply fold_left_app. Qed.

(** Inside the debounce window a call only counts. *)
Lemma zero_cross_call_debounce st s :
  zero_cross.count st < zero_cross.min_samples st ->
  snd (zero_cross.call st s) =
    zero_cross.mk (zero_cross.hysteresis st) (zero_cross.min_samples st)
      (zero_cross.state st) (size_t.succ (zero_cross.count st)) /\
  fst (zero_cross.call st s) = zero_cross.of_bool (zero_cross.state st).
Proof.
  intros H. unfold zero_cross.call.
  apply Z.ltb_lt in H. rewrite H. now split.
Qed.

Lemma zero_cross_after_debounce l : forall st,
  0 <= zero_cross.count st ->
  zero_cross.count st + Z.of_nat (length l) <= zero_cross.min_samples st ->
  zero_cross.min_samples st < size_t.modulus ->
  zero_cross.count (zero_cross.after st l) =
    zero_cross.count st + Z.of_nat (length l) /\
  zero_cross.state (zero_cross.after st l) = zero_cross.state st.
Proof.
  induction l as [|s l IH]; intros st H0 Hk Hm.
  - cbn. split; [lia|reflexivity].
  - cbn [length] in Hk. rewrite Nat2Z.inj_succ in Hk.
    unfold zero_cross.after in *. cbn [fold_left].
    destruct (zero_cross_call_debounce st s ltac:(lia)) as [E _].
    rewrite E.
    assert (Hs : size_t.succ (zero_cross.count st) = zero_cross.count st + 1)
      by (unfold size_t.succ; apply Z.mod_small; lia).
    rewrite Hs.
    destruct (IH (zero_cross.mk (zero_cross.hysteresis st) (zero_cross.min_samples st)
                    (zero_cross.state st) (zero_cross.count st + 1))) as [E1 E2];
      cbn [zero_cross.count zero_cross.min_samples]; try lia.
    rewrite E1, E2. cbn [length zero_cross.count zero_cross.state].
    split; [lia|reflexivity].
Qed.

(** After a reported edge, the next [min_samples] calls report none. *)
Lemma zero_cross_quiet_after_edge st l :
  zero_cross.edge st = true ->
  0 <= zero_cross.min_samples st < size_t.modulus ->
  (0 < length l)%nat ->
  Z.of_nat (length l) <= zero_cross.min_samples st ->
  zero_cross.edge (zero_cross.after st l) = false.
Proof.
  unfold zero_cross.edge. intros He Hk Hl Hlk. apply Z.eqb_eq in He.
  destruct (zero_cross_after_debounce l st) as [E _]; [lia|lia|lia|].
  rewrite E, He. apply Z.eqb_neq. lia.
Qed.

Lemma firstn_split_at {A} (l : list A) (i j : nat) :
  (i <= j)%nat ->
  firstn j l = firstn i l ++ firstn (j - i) (skipn i l).
Proof.
  revert l j. induction i as [|i IH]; intros l j Hij.
  - now rewrite Nat.sub_0_r.
  - destruct j as [|j]; [lia|]. destruct l as [|a l]; [now rewrite skipn_nil, !firstn_nil|].
    cbn. f_equal. apply IH. lia.
Qed.

Lemma zero_cross_edges_apart st l i j :
  0 <= zero_cross.min_samples st < size_t.modulus ->
  (i < j)%nat -> (j < length l)%nat ->
  zero_cross.edge_after st l i = true ->
  zero_cross.edge_after st l j = true ->
  zero_cross.min_samples st < Z.of_nat (j - i).
Proof.
  intros Hk Hij Hj Hi Hje. unfold zero_cross.edge_after in *.
  destruct (Z_lt_le_dec (zero_cross.min_samples st) (Z.of_nat (j - i)))
    as [|Hle]; [assumption|exfalso].
  rewrite (firstn_split_at l (S i) (S j)) in Hje by lia.
  rewrite zero_cross_after_app in Hje.
  set (sti := zero_cross.after st (firstn (S i) l)) in *.
  assert (Hlen : length (firstn (S j - S i) (skipn (S i) l)) = (j - i)%nat).
  { rewrite length_firstn, length_skipn. lia. }
  pose proof (zero_cross_after_frame (firstn (S i) l) st) as [_ Hms].
  fold sti in Hms.
  assert (Hq : zero_cross.edge
                 (zero_cross.after sti (firstn (S j - S i) (skipn (S i) l))) = false).
  { apply zero_cross_quiet_after_edge; rewrite ?Hlen, ?Hms;
      [assumption|assumption|lia|assumption]. }
  congruence.
Qed.

(** C5: with [min_samples = k], two calls after which [edge()] is true are
    never closer together than [k] samples, whatever the input and the
    object the stream starts from. *)
Theorem zero_cross_debounce (k : Z) (st : zero_cross.t) (l : list F32.float)
    (i j : nat) :
  zero_cross.min_samples st = k ->
  size_t.in_range k ->
  (i < j)%nat -> (j < length l)%nat ->
  zero_cross.edge_after st l i = true ->
  zero_cross.edge_after st l j = true ->
  k <= Z.of_nat (j - i).
Proof.
  intros Hk Hr Hij Hj Hi Hje. subst k.
  apply Z.lt_le_incl. now apply zero_cross_edges_apart with (st := st) (l := l).
Qed.

Lemma zero_cross_debounce_witness :
  let st := zero_cross.mk F32.lit_0_005 2 false 0 in
  let l := [F32.one; F32.one; F32.one;
            F32.opp F32.one; F32.opp F32.one; F32.opp F32.one] in
  zero_cross.edge_after st l 2 = true /\
  zero_cross.edge_after st l 5 = true /\
  2 <= Z.of_nat (5 - 2).
Proof.
  cbv zeta. split; [reflexivity|]. split; [reflexivity|].
  apply (zero_cross_debounce 2 (zero_cross.mk F32.lit_0_005 2 false 0)
           [F32.one; F32.one; F32.one;
            F32.opp F32.one; F32.opp F32.one; F32.opp F32.one] 2 5).
  - reflexivity.
  - unfold size_t.in_range, size_t.modulus. lia.
  - lia.
  - cbn. lia.
  - reflexivity.
  - reflexivity.
Defined.

(** A sample strictly inside the band triggers neither comparison. *)
Lemma zero_cross_call_in_band st s :
  zero_cross.in_band (zero_cross.hysteresis st) s = true ->
  zero_cross.state (snd (zero_cross.call st s)) = zero_cross.state st /\
  fst (zero_cross.call st s) = zero_cross.of_bool (zero_cross.state st).
Proof.
  unfold zero_cross.in_band. intros H. apply andb_true_iff in H as [Hlo Hhi].
  apply ltb_asym in Hlo, Hhi.
  unfold zero_cross.call. cbn [zero_cross.hysteresis zero_cross.state].
  change (F32.ltb (zero_cross.hysteresis st) s) with (FP.ltb (zero_cross.hysteresis st) s).
  change (F32.ltb s (F32.opp (zero_cross.hysteresis st)))
    with (FP.ltb s (F32.opp (zero_cross.hysteresis st))).
  rewrite Hlo, Hhi. cbn [andb].
  destruct (zero_cross.count st <? zero_cross.min_samples st); now split.
Qed.

Lemma zero_cross_after_in_band l : forall st,
  Forall (fun s => zero_cross.in_band (zero_cross.hysteresis st) s = true) l ->
  zero_cross.state (zero_cross.after st l) = zero_cross.state st.
Proof.
  induction l as [|s l IH]; intros st Hl; [reflexivity|].
  inversion Hl as [|? ? Hs Hl']; subst.
  unfold zero_cross.after in *. cbn [fold_left].
  rewrite IH.
  - now apply zero_cross_call_in_band.
  - now rewrite (proj1 (zero_cross_call_frame st s)).
Qed.

Lemma Forall_firstn {A} (P : A -> Prop) (l : list A) :
  Forall P l -> forall n, Forall P (firstn n l).
Proof.
  induction 1 as [|a l Ha Hl IH]; intros [|n]; cbn; auto.
Qed.

(** C8: while every sample lies strictly inside [(-h, +h)], the boolean
    state of a [zero_cross] with hysteresis [h] is the one it started with
    after every call, and every call returns it: no transition is ever
    triggered, whatever the initial object. *)
Theorem zero_cross_hysteresis_band (st : zero_cross.t) (l : list F32.float) :
  Forall (fun s => zero_cross.in_band (zero_cross.hysteresis st) s = true) l ->
  forall n : nat,
    zero_cross.state (zero_cross.after st (firstn n l)) = zero_cross.state st /\
    (forall s, nth_error l n = Some s ->
       fst (zero_cross.call (zero_cross.after st (firstn n l)) s) =
         zero_cross.of_bool (zero_cross.state st)).
Proof.
  intros Hl n.
  assert (Hn : zero_cross.state (zero_cross.after st (firstn n l)) = zero_cross.state st).
  { apply zero_cross_after_in_band. now apply Forall_firstn. }
  split; [exact Hn|].
  intros s Hs. rewrite <- Hn.
  apply zero_cross_call_in_band.
  rewrite (proj1 (zero_cross_after_frame _ st)).
  rewrite Forall_forall in Hl. apply Hl. eapply nth_error_In. exact Hs.
Qed.

Lemma zero_cross_hysteresis_band_witness :
  let st := zero_cross.mk F32.half 0 true 7 in
  let l := [F32.lit_0_005; F32.opp F32.lit_0_005; F32.zero] in
  Forall (fun s => zero_cross.in_band F32.half s = true) l /\
  zero_cross.state (zero_cross.after st (firstn 3 l)) = true.
Proof.
  cbv zeta. split; [repeat constructor|].
  refine (proj1 (zero_cross_hysteresis_band
                   (zero_cross.mk F32.half 0 true 7)
                   [F32.lit_0_005; F32.opp F32.lit_0_005; F32.zero] _ 3)).
  repeat constructor.
Defined.

(** ** onset *)

(** An onset, its release, a reset and a second onset, with a window of
    one sample: state, counter and latch after each operation. *)
Example onset_trace :
  let o := onset_init _ schmitt_trigger.make 1 in
  let ops := [Call F32.one F32.one; Call F32.one F32.one;
              Call F32.half F32.one; Call F32.half F32.one; Reset;
              Call F32.lit_0_8 F32.half; Call F32.lit_0_8 F32.half] in
  map (fun i => let o' := onset_after schmitt_trigger.call o (firstn i ops) in
                (_state o', _count o', _current_peak o')) (seq 1 7) =
  [(false, 1, F32.zero); (true, 0, F32.one); (true, 1, F32.one);
   (false, 0, F32.one); (false, 0, F32.zero); (false, 1, F32.zero);
   (true, 0, F32.lit_0_8)].
Proof. reflexivity. Qed.

(** What the latch may hold: [+0] or a value above it. *)
Lemma ltb_zero_trans p s :
  p = F32.zero \/ F32.ltb F32.zero p = true ->
  F32.ltb p s = true ->
  F32.ltb F32.zero s = true.
Proof.
  intros [->|Hp] Hs; [exact Hs|]. exact (ltb_trans _ _ _ Hp Hs).
Qed.

Section OnsetFacts.
Variable schmitt_trigger : Type.
Variable schmitt_make : F32.float -> schmitt_trigger.
Variable schmitt_call :
  schmitt_trigger -> F32.float -> F32.float -> bool * schmitt_trigger.

Implicit Type o : onset schmitt_trigger.

(** Inside the debounce window the call only counts; the peak detector
    is not consulted. *)
Lemma onset_call_debounce o s env :
  _count o < _min_samples o ->
  onset_call schmitt_call o s env =
    (_state o,
     mk_onset _ (_pk o) (_min_samples o) (_state o) (size_t.succ (_count o))
              (_current_peak o)).
Proof.
  intros H. unfold onset_call. apply Z.ltb_lt in H. now rewrite H.
Qed.

(** Past the window, the three-way decision of [operator()]. *)
Lemma onset_call_past o s env :
  _min_samples o <= _count o ->
  let pk := fst (peak_call _ schmitt_call (_pk o) s env) in
  let p' := snd (peak_call _ schmitt_call (_pk o) s env) in
  onset_call schmitt_call o s env =
    if negb (_state o) && pk then
      if F32.ltb (_current_peak o) s
      then (true, mk_onset _ p' (_min_samples o) true 0 s)
      else (_state o,
            mk_onset _ p' (_min_samples o) (_state o) (size_t.succ (_count o))
                     (_current_peak o))
    else if _state o && negb pk then
      (false, mk_onset _ p' (_min_samples o) false 0 (_current_peak o))
    else (_state o,
          mk_onset _ p' (_min_samples o) (_state o) (size_t.succ (_count o))
                   (_current_peak o)).
Proof.
  intros H. cbv zeta. unfold onset_call.
  apply Z.ltb_ge in H. rewrite H.
  cbn [_pk _state _count _min_samples _current_peak].
  now destruct (peak_call _ schmitt_call (_pk o) s env) as [pk p'].
Qed.

(** A call either keeps the latch or raises it to the sample while
    going from quiet to active. *)
Lemma onset_call_latch o s env :
  let o' := snd (onset_call schmitt_call o s env) in
  _current_peak o' = _current_peak o \/
  (_state o = false /\ _state o' = true /\ _current_peak o' = s /\
   F32.ltb (_current_peak o) s = true).
Proof.
  cbv zeta.
  destruct (Z_lt_le_dec (_count o) (_min_samples o)) as [Hd|Hp].
  - rewrite onset_call_debounce by assumption. now left.
  - rewrite (onset_call_past o s env Hp).
    destruct (_state o) eqn:Es;
      destruct (fst (peak_call _ schmitt_call (_pk o) s env)); cbn [negb andb];
      try (now left).
    destruct (F32.ltb (_current_peak o) s) eqn:El; [right|left]; now cbn.
Qed.

Lemma onset_step_latch_ok o op :
  onset_latch_ok o -> onset_latch_ok (onset_step schmitt_call o op).
Proof.
  unfold onset_latch_ok. intros H. destruct op as [s env| |]; cbn.
  - destruct (onset_call_latch o s env) as [E|(_ & _ & E & Hlt)];
      rewrite E; [assumption|].
    right. eapply ltb_zero_trans; eassumption.
  - now left.
  - assumption.
Qed.

Lemma onset_after_latch_ok ops : forall o,
  onset_latch_ok o -> onset_latch_ok (onset_after schmitt_call o ops).
Proof.
  induction ops as [|op ops IH]; intros o H; [exact H|].
  apply IH. now apply onset_step_latch_ok.
Qed.

Lemma onset_init_latch_ok ms : onset_latch_ok (onset_init _ schmitt_make ms).
Proof. now left. Qed.

(** One operation on an object whose latch is [+0] or above. *)
Lemma onset_step_latch o op :
  onset_latch_ok o ->
  let o' := onset_step schmitt_call o op in
  _current_peak o' = _current_peak o \/
  (op = Reset /\ _current_peak o' = F32.zero /\
   F32.ltb (_current_peak o') (_current_peak o) = true) \/
  (exists s env, op = Call s env /\ _state o = false /\ _state o' = true /\
     _current_peak o' = s /\ F32.ltb (_current_peak o) (_current_peak o') = true).
Proof.
  intros H. cbv zeta. destruct op as [s env| |]; cbn.
  - destruct (onset_call_latch o s env) as [E|(E1 & E2 & E3 & E4)];
      [now left|].
    right. right. exists s, env. rewrite E3. auto.
  - destruct H as [E|Hlt]; [left; now rewrite E|].
    right. left. auto.
  - now left.
Qed.

End OnsetFacts.

(** C4: a call of [onset::operator()] past the debounce window
    ([_count >= _min_samples] on entry) does one of three things.  Quiet,
    peak detector firing and sample strictly above the latch: the state
    becomes active, the latch takes the sample and the counter is reset to
    zero.  Active and peak detector not firing: the state becomes quiet and
    the counter is reset to zero.  Anything else: state and latch stay as
    they are and the counter is not reset, it keeps its incremented value.
    The call returns the resulting state. *)
Theorem onset_call_transitions (schmitt_trigger : Type)
    (schmitt_call : schmitt_trigger -> F32.float -> F32.float -> bool * schmitt_trigger)
    (o : onset schmitt_trigger) (s env : F32.float) :
  _min_samples o <= _count o ->
  let pk := fst (peak_call _ schmitt_call (_pk o) s env) in
  let o' := snd (onset_call schmitt_call o s env) in
  (_state o = false -> pk = true -> F32.ltb (_current_peak o) s = true ->
     _state o' = true /\ _current_peak o' = s /\ _count o' = 0) /\
  (_state o = true -> pk = false ->
     _state o' = false /\ _count o' = 0 /\ _current_peak o' = _current_peak o) /\
  (~ (_state o = false /\ pk = true /\ F32.ltb (_current_peak o) s = true) ->
   ~ (_state o = true /\ pk = false) ->
     _state o' = _state o /\ _current_peak o' = _current_peak o /\
     _count o' = size_t.succ (_count o)) /\
  fst (onset_call schmitt_call o s env) = _state o'.
Proof.
  intros Hp. cbv zeta. rewrite (onset_call_past _ schmitt_call o s env Hp).
  destruct (_state o); destruct (fst (peak_call _ schmitt_call (_pk o) s env));
    destruct (F32.ltb (_current_peak o) s); cbn;
    repeat split; try discriminate; try tauto;
    intros H1 H2; exfalso; tauto.
Qed.

Lemma onset_call_transitions_witness :
  let o := onset_init _ schmitt_trigger.make 0 in
  let o' := snd (onset_call schmitt_trigger.call o F32.one F32.one) in
  _min_samples o <= _count o /\
  _state o' = true /\ _current_peak o' = F32.one /\ _count o' = 0.
Proof.
  cbv zeta. split; [cbn; lia|].
  refine (proj1 (onset_call_transitions _ schmitt_trigger.call
                   (onset_init _ schmitt_trigger.make 0) F32.one F32.one _) _ _ _).
  - cbn; lia.
  - reflexivity.
  - reflexivity.
  - reflexivity.
Defined.

(** A call that takes the state from quiet to active has latched its
    sample, which was strictly above the latch. *)
Lemma onset_call_activates (schmitt_trigger : Type)
    (schmitt_call : schmitt_trigger -> F32.float -> F32.float -> bool * schmitt_trigger)
    (o : onset schmitt_trigger) (s env : F32.float) :
  _state o = false ->
  _state (snd (onset_call schmitt_call o s env)) = true ->
  _current_peak (snd (onset_call schmitt_call o s env)) = s /\
  F32.ltb (_current_peak o) s = true.
Proof.
  intros Hq.
  destruct (Z_lt_le_dec (_count o) (_min_samples o)) as [Hd|Hp].
  - rewrite onset_call_debounce by assumption. cbn. congruence.
  - rewrite (onset_call_past _ schmitt_call o s env Hp). rewrite Hq.
    destruct (fst (peak_call _ schmitt_call (_pk o) s env)); cbn [negb andb];
      [|cbn; congruence].
    destruct (F32.ltb (_current_peak o) s); cbn; [auto|congruence].
Qed.

(** How one operation can move the latch of an object reached from the
    constructor. *)
Lemma onset_step_latch_changes (schmitt_trigger : Type)
    (schmitt_make : F32.float -> schmitt_trigger)
    (schmitt_call : schmitt_trigger -> F32.float -> F32.float -> bool * schmitt_trigger)
    (min_samples : Z) (ops : list onset_op) (op : onset_op) :
  let o := onset_after schmitt_call (onset_init _ schmitt_make min_samples) ops in
  let o' := onset_step schmitt_call o op in
  (F32.ltb (_current_peak o') (_current_peak o) = true ->
     op = Reset /\ _current_peak o' = F32.zero) /\
  (F32.ltb (_current_peak o) (_current_peak o') = true ->
     exists s env, op = Call s env /\ _state o = false /\ _state o' = true /\
       F32.ltb (_current_peak o) s = true /\ _current_peak o' = s) /\
  (_current_peak o' = _current_peak o \/
   (op = Reset /\ F32.ltb (_current_peak o') (_current_peak o) = true) \/
   (exists s env, op = Call s env /\ _state o = false /\ _state o' = true /\
      F32.ltb (_current_peak o) (_current_peak o') = true)).
Proof.
  cbv zeta.
  set (o := onset_after schmitt_call (onset_init _ schmitt_make min_samples) ops).
  assert (Hok : onset_latch_ok o).
  { apply onset_after_latch_ok, onset_init_latch_ok. }
  pose proof (onset_step_latch _ schmitt_call o op Hok) as H. cbv zeta in H.
  assert (Hirr : forall a, F32.ltb a a = true -> False).
  { intros a Ha. pose proof (ltb_asym _ _ Ha). congruence. }
  destruct H as [E|[(E1 & E2 & E3)|(s & env & E1 & E2 & E3 & E4 & E5)]];
    (split; [|split]).
  - rewrite E. intros Hl. destruct (Hirr _ Hl).
  - rewrite E. intros Hl. destruct (Hirr _ Hl).
  - now left.
  - intros _. now split.
  - intros Hl. pose proof (ltb_asym _ _ E3). congruence.
  - right. left. auto.
  - intros Hl. pose proof (ltb_asym _ _ E5). congruence.
  - intros _. exists s, env. rewrite E4 in E5. auto.
  - right. right. exists s, env. auto.
Qed.

(** C6: along any sequence of operations on a constructed [onset], the
    latch [_current_peak] goes strictly down only in [reset()], which
    always leaves it at zero, and strictly up only in a call of
    [operator()] that takes the state from quiet to active with a sample
    strictly above the latch, which becomes the new latch; every such
    call does raise it, and every other operation ([peak_val()] among
    them) leaves it unchanged. *)
Theorem onset_current_peak_changes (schmitt_trigger : Type)
    (schmitt_make : F32.float -> schmitt_trigger)
    (schmitt_call : schmitt_trigger -> F32.float -> F32.float -> bool * schmitt_trigger)
    (min_samples : Z) (ops : list onset_op) (op : onset_op) :
  let o := onset_after schmitt_call (onset_init _ schmitt_make min_samples) ops in
  let o' := onset_step schmitt_call o op in
  (F32.ltb (_current_peak o') (_current_peak o) = true ->
     op = Reset /\ _current_peak o' = F32.zero) /\
  (F32.ltb (_current_peak o) (_current_peak o') = true ->
     exists s env, op = Call s env /\ _state o = false /\ _state o' = true /\
       F32.ltb (_current_peak o) s = true /\ _current_peak o' = s) /\
  (_current_peak o' = _current_peak o \/
   (op = Reset /\ F32.ltb (_current_peak o') (_current_peak o) = true) \/
   (exists s env, op = Call s env /\ _state o = false /\ _state o' = true /\
      F32.ltb (_current_peak o) (_current_peak o') = true)) /\
  (op = Reset ->
     _current_peak o' = F32.zero /\
     (_current_peak o <> F32.zero ->
        F32.ltb (_current_peak o') (_current_peak o) = true)) /\
  (forall s env, op = Call s env -> _state o = false -> _state o' = true ->
     _current_peak o' = s /\ F32.ltb (_current_peak o) s = true) /\
  (op = PeakVal -> o' = o).
Proof.
  cbv zeta.
  destruct (onset_step_latch_changes _ schmitt_make schmitt_call min_samples ops op)
    as (H1 & H2 & H3).
  repeat (split; [assumption|]).
  set (o := onset_after schmitt_call (onset_init _ schmitt_make min_samples) ops).
  split; [|split].
  - intros ->. cbn. split; [reflexivity|]. intros Hne.
    assert (Hok : onset_latch_ok o)
      by apply onset_after_latch_ok, onset_init_latch_ok.
    destruct Hok as [E|Hlt]; [contradiction|exact Hlt].
  - intros s env -> Hq Ha. cbn in Ha |- *.
    now apply onset_call_activates.
  - now intros ->.
Qed.

Lemma onset_current_peak_changes_witness :
  let o := onset_after schmitt_trigger.call
             (onset_init _ schmitt_trigger.make 0) [Call F32.one F32.one] in
  _current_peak o = F32.one /\
  _current_peak (onset_step schmitt_trigger.call o Reset) = F32.zero /\
  F32.ltb (_current_peak (onset_step schmitt_trigger.call o Reset))
          (_current_peak o) = true.
Proof.
  cbv zeta. split; [reflexivity|].
  destruct (onset_current_peak_changes _ schmitt_trigger.make schmitt_trigger.call
              0 [Call F32.one F32.one] Reset)
    as (_ & _ & _ & Hr & _).
  destruct (Hr eq_refl) as [Hz Hd]. split; [exact Hz|].
  apply Hd. discriminate.
Defined.

(** * Further properties *)

(** ** More on the floating-point order *)

Lemma leb_trans a b c :
  FP.leb a b = true -> FP.leb b c = true -> FP.leb a c = true.
Proof.
  intros Hab Hbc.
  destruct (FP.ltb a b) eqn:Hlt.
  - apply ltb_leb. exact (ltb_leb_trans _ _ _ Hlt Hbc).
  - unfold FP.ltb, FP.leb, SFltb, SFleb in *.
    destruct (SFcompare a b) as [[| |]|] eqn:E; try discriminate.
    apply SFcompare_antisym in E. cbn in E.
    destruct (SFcompare b c) as [cbc|] eqn:E2; try discriminate.
    pose proof (SFcompare_Eq_r c b a E) as H.
    apply SFcompare_antisym in E2. rewrite E2 in H.
    symmetry in H. apply SFcompare_antisym in H.
    rewrite CompOpp_involutive in H. rewrite H. exact Hbc.
Qed.

Lemma SFsub_add_opp prec emax x y :
  SFsub prec emax x y = SFadd prec emax x (SFopp y).
Proof.
  destruct x as [sx|sx| |sx mx ex], y as [sy|sy| |sy my ey]; cbn;
    try reflexivity; now destruct sx, sy.
Qed.

(** [x - x] is [+0] for every finite [x]. *)
Lemma SFsub_diag prec emax x :
  FP.is_finite x = true -> SFsub prec emax x x = S754_zero false.
Proof.
  destruct x as [s|s| |s m e]; cbn; try discriminate; intros _.
  - now destruct s.
  - rewrite Z.sub_diag. reflexivity.
Qed.

(** A finite value times a zero is a zero. *)
Lemma SFmul_zero_r prec emax a s :
  FP.is_finite a = true -> exists s', SFmul prec emax a (S754_zero s) = S754_zero s'.
Proof. destruct a; cbn; try discriminate; eauto. Qed.

Lemma SFmul_zero_l prec emax a s :
  FP.is_finite a = true -> exists s', SFmul prec emax (S754_zero s) a = S754_zero s'.
Proof. destruct a; cbn; try discriminate; eauto. Qed.

(** Adding a zero to a finite value other than [-0] changes nothing. *)
Lemma SFadd_zero_r prec emax x s :
  FP.is_finite x = true -> x <> S754_zero true ->
  SFadd prec emax x (S754_zero s) = x.
Proof.
  destruct x as [[|]|sx| |sx m e]; cbn; try discriminate; try congruence.
  now destruct s.
Qed.

Lemma SFadd_zero_finite prec emax x s :
  FP.is_finite x = true -> FP.is_finite (SFadd prec emax x (S754_zero s)) = true.
Proof. destruct x as [[|]|sx| |sx m e], s; cbn; congruence. Qed.

Lemma leb_zero_inv_neg a :
  SFleb a (S754_zero false) = true ->
  (exists s, a = S754_zero s) \/ a = S754_infinity true \/
  exists m e, a = S754_finite true m e.
Proof.
  destruct a as [s|[|]| |[|] m e]; cbn; try discriminate; eauto.
Qed.

Section RoundingOrder.
Variables prec emax : Z.
Hypothesis Hprec : 0 < prec.

Local Abbreviation fexp := (SpecFloat.fexp prec emax).

(** On floats of the format, the order on (exponent, mantissa) pairs is
    the order on values. *)
Lemma bounded_lex_value m1 e1 m2 e2 ez :
  bounded prec emax m1 e1 = true -> bounded prec emax m2 e2 = true ->
  ez <= e1 -> ez <= e2 ->
  e1 < e2 \/ (e1 = e2 /\ (m1 <= m2)%positive) ->
  Zpos m1 * 2 ^ (e1 - ez) <= Zpos m2 * 2 ^ (e2 - ez).
Proof.
  intros H1 H2 Hz1 Hz2 [Hlt|[-> Hle]].
  - destruct (bounded_inv prec emax m1 e1 H1) as (Hc1 & _ & _ & _ & _).
    destruct (bounded_inv prec emax m2 e2 H2) as (Hc2 & _ & _ & _ & _).
    destruct (Zdigits2_bounds (Zpos m1) ltac:(lia)) as [Hd1 [_ Hhi1]].
    destruct (Zdigits2_bounds (Zpos m2) ltac:(lia)) as [Hd2 [Hlo2 _]].
    set (D1 := Zdigits2 (Zpos m1)) in *. set (D2 := Zdigits2 (Zpos m2)) in *.
    assert (HD : D1 + e1 < D2 + e2).
    { destruct (Z_lt_le_dec (D1 + e1) (D2 + e2)) as [|Hge]; [assumption|].
      pose proof (fexp_mono prec emax _ _ Hge). lia. }
    pose proof (pow2_pos (e1 - ez) ltac:(lia)) as Hp1.
    pose proof (pow2_pos (e2 - ez) ltac:(lia)) as Hp2.
    assert (Ha : Zpos m1 * 2 ^ (e1 - ez) < 2 ^ (D1 + (e1 - ez))).
    { rewrite pow2_split by lia. nia. }
    assert (Hb : 2 ^ (D2 - 1 + (e2 - ez)) <= Zpos m2 * 2 ^ (e2 - ez)).
    { rewrite pow2_split by lia. nia. }
    assert (Hc : 2 ^ (D1 + (e1 - ez)) <= 2 ^ (D2 - 1 + (e2 - ez))).
    { apply pow2_le. lia. }
    lia.
  - pose proof (pow2_pos (e2 - ez) ltac:(lia)). nia.
Qed.

(** The exact integers that [SFadd] and [SFsub] combine are ordered as
    the floats are. *)
Lemma finite_leb_exact sy my ey sx mx ex :
  bounded prec emax my ey = true -> bounded prec emax mx ex = true ->
  SFleb (S754_finite sy my ey) (S754_finite sx mx ex) = true ->
  cond_Zopp sy (Zpos (fst (shl_align my ey (Z.min ex ey)))) <=
  cond_Zopp sx (Zpos (fst (shl_align mx ex (Z.min ex ey)))).
Proof.
  intros Hy Hx Hle.
  rewrite !shl_align_fst by lia.
  pose proof (pow2_pos (ex - Z.min ex ey) ltac:(lia)).
  pose proof (pow2_pos (ey - Z.min ex ey) ltac:(lia)).
  unfold SFleb in Hle. rewrite SFcompare_finite in Hle.
  destruct sy, sx; cbn [cond_Zopp]; try discriminate; try nia.
  - assert (Hl : FP.lex_compare ey my ex mx <> Lt)
      by (destruct (FP.lex_compare ey my ex mx); cbn in Hle; congruence).
    assert (Hv : Zpos mx * 2 ^ (ex - Z.min ex ey) <= Zpos my * 2 ^ (ey - Z.min ex ey)).
    { apply bounded_lex_value; try assumption; try lia.
      destruct (Z_lt_le_dec ex ey) as [|Hge]; [now left|right].
      destruct (Z.eq_dec ex ey) as [E|E].
      - split; [assumption|].
        destruct (Pos.leb_spec mx my) as [|Hgt]; [assumption|exfalso].
        apply Hl. apply lex_compare_Lt. right. split; [lia|assumption].
      - exfalso. apply Hl. apply lex_compare_Lt. left. lia. }
    lia.
  - assert (Hl : FP.lex_compare ey my ex mx <> Gt)
      by (destruct (FP.lex_compare ey my ex mx); cbn in Hle; congruence).
    apply bounded_lex_value; try assumption; try lia.
    destruct (Z_lt_le_dec ey ex) as [|Hge]; [now left|right].
    destruct (Z.eq_dec ey ex) as [E|E].
    + split; [assumption|].
      destruct (Pos.leb_spec my mx) as [|Hgt]; [assumption|exfalso].
      apply Hl. apply lex_compare_Gt. right. split; [lia|assumption].
    + exfalso. apply Hl. apply lex_compare_Gt. left. lia.
Qed.

(** Rounding keeps the sign of the exact value. *)
Lemma binary_normalize_sign mz e :
  (0 <= mz -> SFleb (S754_zero false) (binary_normalize prec emax mz e false) = true) /\
  (mz <= 0 -> SFleb (binary_normalize prec emax mz e false) (S754_zero false) = true).
Proof.
  destruct mz as [|m|m]; cbn [binary_normalize]; split; intros H; try lia;
    try reflexivity.
  - destruct (binary_round_sign prec emax false m e) as [->|[->|(m3 & e3 & ->)]];
      reflexivity.
  - destruct (binary_round_sign prec emax true m e) as [->|[->|(m3 & e3 & ->)]];
      reflexivity.
Qed.

(** The difference of two floats of the format has the sign their order
    says, unless it is the NaN of [inf - inf]. *)
Lemma SFsub_sign x y :
  valid_binary prec emax x = true -> valid_binary prec emax y = true ->
  SFleb y x = true ->
  SFsub prec emax x y = S754_nan \/
  SFleb (S754_zero false) (SFsub prec emax x y) = true.
Proof.
  intros Hx Hy Hle.
  destruct x as [sx|sx| |sx mx ex], y as [sy|sy| |sy my ey];
    try (cbn in Hle; discriminate);
    try (destruct sx); try (destruct sy);
    try (cbn in Hle; discriminate);
    try (now left); try (now right).
  all: right; cbn [SFsub]; apply binary_normalize_sign;
    pose proof (finite_leb_exact _ _ _ _ _ _ Hy Hx Hle) as H;
    cbn [cond_Zopp] in *; lia.
Qed.

Lemma SFsub_sign_neg x y :
  valid_binary prec emax x = true -> valid_binary prec emax y = true ->
  SFleb x y = true ->
  SFsub prec emax x y = S754_nan \/
  SFleb (SFsub prec emax x y) (S754_zero false) = true.
Proof.
  intros Hx Hy Hle.
  destruct x as [sx|sx| |sx mx ex], y as [sy|sy| |sy my ey];
    try (cbn in Hle; discriminate);
    try (destruct sx); try (destruct sy);
    try (cbn in Hle; discriminate);
    try (now left); try (now right).
  all: right; cbn [SFsub]; apply binary_normalize_sign;
    pose proof (finite_leb_exact _ _ _ _ _ _ Hx Hy Hle) as H;
    rewrite Z.min_comm in H;
    cbn [cond_Zopp] in *; lia.
Qed.


(** Adding a negative finite value to a float of the format never gives
    more than that float. *)
Lemma SFadd_finite_neg_le sx mx ex my ey :
  bounded prec emax mx ex = true ->
  SFleb (SFadd prec emax (S754_finite sx mx ex) (S754_finite true my ey))
        (S754_finite sx mx ex) = true.
Proof.
  intros Hb. cbn [SFadd].
  set (ez := Z.min ex ey).
  pose proof (shl_align_fst mx ex ez ltac:(lia)) as HX.
  pose proof (shl_align_fst my ey ez ltac:(lia)) as HY.
  set (X := fst (shl_align mx ex ez)) in *.
  set (Y := fst (shl_align my ey ez)) in *.
  destruct sx; cbn [cond_Zopp].
  - destruct (Z.opp (Zpos X) + Z.opp (Zpos Y)) as [|m|m] eqn:Em; try lia.
    cbn [binary_normalize].
    destruct (binary_round_ge prec emax Hprec true mx ex m ez Hb ltac:(lia) ltac:(lia))
      as [->|(m3 & e3 & -> & Hlex)]; [reflexivity|].
    apply leb_finite_lex. intros Hc. apply lex_compare_Lt in Hc. lia.
  - destruct (Zpos X + Z.opp (Zpos Y)) as [|m|m] eqn:Em; cbn [binary_normalize].
    + reflexivity.
    + destruct (binary_round_le prec emax Hprec false mx ex m ez Hb ltac:(lia) ltac:(lia))
        as [->|(m3 & e3 & -> & Hlex)]; [reflexivity|].
      apply leb_finite_lex. intros Hc. apply lex_compare_Gt in Hc. lia.
    + destruct (binary_round_sign prec emax true m ez) as [->|[->|(m3 & e3 & ->)]];
        reflexivity.
Qed.

(** Adding a value [<= 0] to a float of the format gives a NaN or a value
    no greater than the float. *)
Lemma SFadd_nonpos_le x y :
  valid_binary prec emax x = true ->
  SFleb y (S754_zero false) = true ->
  SFadd prec emax x y <> S754_nan ->
  SFleb (SFadd prec emax x y) x = true.
Proof.
  intros Hx Hy Hn.
  destruct (leb_zero_inv_neg y Hy) as [[s ->]|[->|(m & e & ->)]].
  - destruct x as [sx|sx| |sx mx ex]; cbn [SFadd] in *;
      try (now apply SFleb_refl); try congruence.
    now destruct sx, s.
  - destruct x as [sx|[|]| |sx mx ex]; cbn [SFadd] in *; try congruence;
      try reflexivity; try (now destruct sx).
  - destruct x as [sx|sx| |sx mx ex]; cbn [SFadd] in Hn |- *; try congruence.
    + now destruct sx.
    + now destruct sx.
    + now apply SFadd_finite_neg_le.
Qed.

(** The sign of a product whose first factor is [>= 0]. *)
Lemma SFmul_nonneg a b :
  SFleb (S754_zero false) a = true -> SFleb (S754_zero false) b = true ->
  SFmul prec emax a b = S754_nan \/
  SFleb (S754_zero false) (SFmul prec emax a b) = true.
Proof.
  intros Ha Hb.
  destruct (leb_zero_inv a Ha) as [[s ->]|[->|(m & e & ->)]];
    destruct (leb_zero_inv b Hb) as [[s' ->]|[->|(m' & e' & ->)]];
    cbn [SFmul xorb]; auto.
  destruct (binary_round_aux_sign prec emax false (Zpos (m * m')) (e + e') ltac:(lia))
    as [->|[->|(m3 & e3 & ->)]]; auto.
Qed.

Lemma SFmul_nonneg_nonpos a b :
  SFleb (S754_zero false) a = true -> SFleb b (S754_zero false) = true ->
  SFmul prec emax a b = S754_nan \/
  SFleb (SFmul prec emax a b) (S754_zero false) = true.
Proof.
  intros Ha Hb.
  destruct (leb_zero_inv a Ha) as [[s ->]|[->|(m & e & ->)]];
    destruct (leb_zero_inv_neg b Hb) as [[s' ->]|[->|(m' & e' & ->)]];
    cbn [SFmul xorb]; auto.
  destruct (binary_round_aux_sign prec emax true (Zpos (m * m')) (e + e') ltac:(lia))
    as [->|[->|(m3 & e3 & ->)]]; auto.
Qed.

End RoundingOrder.

(** ** One-pole steps *)

(** The update [y + a * (s - y)] shared by [dynamic_lowpass] and the
    stages of [dynamic_smoother]. *)

Lemma pole_step_up y s a :
  F32.valid y = true -> F32.valid s = true ->
  F32.leb F32.zero a = true ->
  F32.is_nan (F32.add y (F32.mul a (F32.sub s y))) = false ->
  F32.leb y s = true ->
  F32.leb y (F32.add y (F32.mul a (F32.sub s y))) = true.
Proof.
  intros Hy Hs Ha Hn Hle. apply is_nan_false in Hn.
  destruct (SFsub_sign F32.prec F32.emax s y Hs Hy Hle) as [E|Hd].
  { exfalso. apply Hn. unfold F32.add, F32.mul, F32.sub. rewrite E.
    destruct a, y; reflexivity. }
  destruct (SFmul_nonneg F32.prec F32.emax a _ Ha Hd) as [E|Hp].
  { exfalso. apply Hn. unfold F32.add, F32.mul, F32.sub. rewrite E.
    destruct y; reflexivity. }
  exact (SFadd_nonneg_ge F32.prec F32.emax eq_refl _ _ Hy Hp Hn).
Qed.

Lemma pole_step_down y s a :
  F32.valid y = true -> F32.valid s = true ->
  F32.leb F32.zero a = true ->
  F32.is_nan (F32.add y (F32.mul a (F32.sub s y))) = false ->
  F32.leb s y = true ->
  F32.leb (F32.add y (F32.mul a (F32.sub s y))) y = true.
Proof.
  intros Hy Hs Ha Hn Hle. apply is_nan_false in Hn.
  destruct (SFsub_sign_neg F32.prec F32.emax s y Hs Hy Hle) as [E|Hd].
  { exfalso. apply Hn. unfold F32.add, F32.mul, F32.sub. rewrite E.
    destruct a, y; reflexivity. }
  destruct (SFmul_nonneg_nonpos F32.prec F32.emax a _ Ha Hd) as [E|Hp].
  { exfalso. apply Hn. unfold F32.add, F32.mul, F32.sub. rewrite E.
    destruct y; reflexivity. }
  exact (SFadd_nonpos_le F32.prec F32.emax eq_refl _ _ Hy Hp Hn).
Qed.

(** At the input already, the update is the identity, whatever the
    finite coefficient. *)
Lemma pole_step_fixed v a :
  F32.is_finite v = true -> v <> S754_zero true -> F32.is_finite a = true ->
  F32.add v (F32.mul a (F32.sub v v)) = v.
Proof.
  intros Hv Hnz Ha. unfold F32.add, F32.mul, F32.sub.
  rewrite SFsub_diag by assumption.
  destruct (SFmul_zero_r F32.prec F32.emax a false Ha) as [s' ->].
  now apply SFadd_zero_r.
Qed.

Lemma stays_refl v : FP.stays v v.
Proof. now left. Qed.

Lemma stays_exact v o : v <> S754_zero true -> FP.stays v o -> o = v.
Proof. intros Hnz [E|[E _]]; [exact E|contradiction]. Qed.

Lemma stays_neg_zero o :
  FP.stays (S754_zero true) o <-> exists sg, o = S754_zero sg.
Proof.
  split.
  - intros [->|[_ ->]]; eauto.
  - intros [[|] ->]; [now left|now right].
Qed.

(** Between zeros the update gives a zero, and [+0] stays [+0]. *)
Lemma pole_step_zeros sy ss a :
  F32.is_finite a = true ->
  exists sg, F32.add (S754_zero sy) (F32.mul a (F32.sub (S754_zero ss) (S754_zero sy)))
             = S754_zero sg.
Proof.
  intros Ha. destruct a as [sa| | |sa m e]; try discriminate;
    destruct sy, ss, sa; cbn; eauto.
Qed.

(** The update toward [v] from a value that is still [v]. *)
Lemma pole_step_stays v y a :
  F32.is_finite v = true -> F32.is_finite a = true ->
  FP.stays v y -> FP.stays v (F32.add y (F32.mul a (F32.sub v y))).
Proof.
  intros Hv Ha Hy.
  destruct v as [[|]|sv| |sv m e]; try discriminate.
  - apply stays_neg_zero. apply stays_neg_zero in Hy as [sy ->].
    now apply pole_step_zeros.
  - rewrite (stays_exact (S754_zero false) y ltac:(discriminate) Hy).
    left. apply pole_step_fixed; [reflexivity|discriminate|assumption].
  - rewrite (stays_exact (S754_finite sv m e) y ltac:(discriminate) Hy).
    left. apply pole_step_fixed; [reflexivity|discriminate|assumption].
Qed.

(** ** dynamic_lowpass *)

(** X1: with a coefficient [a >= 0], [dynamic_lowpass::operator()] never
    moves [y] away from the sample: when [y <= s] the new [y] is at least
    the old one, when [s <= y] it is at most the old one (the result not
    being NaN). *)
Theorem dynamic_lowpass_moves_toward_input (st : dynamic_lowpass.t) (s a : F32.float) :
  F32.valid (dynamic_lowpass.y st) = true -> F32.valid s = true ->
  F32.leb F32.zero a = true ->
  F32.is_nan (fst (dynamic_lowpass.call st s a)) = false ->
  (F32.leb (dynamic_lowpass.y st) s = true ->
     F32.leb (dynamic_lowpass.y st) (fst (dynamic_lowpass.call st s a)) = true) /\
  (F32.leb s (dynamic_lowpass.y st) = true ->
     F32.leb (fst (dynamic_lowpass.call st s a)) (dynamic_lowpass.y st) = true).
Proof.
  intros Hy Hs Ha Hn. cbn [dynamic_lowpass.call fst] in *. split; intros Hle.
  - now apply pole_step_up.
  - now apply pole_step_down.
Qed.

Lemma dynamic_lowpass_moves_toward_input_witness :
  let st := dynamic_lowpass.mk F32.lit_0_005 in
  F32.leb (dynamic_lowpass.y st) F32.one = true /\
  F32.leb (dynamic_lowpass.y st)
          (fst (dynamic_lowpass.call st F32.one F32.lit_0_8)) = true.
Proof.
  cbv zeta. split; [reflexivity|].
  apply (proj1 (dynamic_lowpass_moves_toward_input
                  (dynamic_lowpass.mk F32.lit_0_005) F32.one F32.lit_0_8
                  eq_refl eq_refl eq_refl eq_refl)).
  reflexivity.
Defined.

Lemma dynamic_lowpass_run_fixed v l :
  F32.is_finite v = true -> v <> S754_zero true ->
  Forall (fun a => F32.is_finite a = true) l ->
  dynamic_lowpass.run (dynamic_lowpass.mk v) (map (pair v) l) =
    (repeat v (length l), dynamic_lowpass.mk v).
Proof.
  intros Hv Hnz Hl. induction Hl as [|a l Ha Hl IH]; [reflexivity|].
  cbn [map dynamic_lowpass.run dynamic_lowpass.call dynamic_lowpass.y].
  rewrite pole_step_fixed by assumption. rewrite IH. reflexivity.
Qed.

Lemma dynamic_lowpass_run_stays v l : forall y0,
  F32.is_finite v = true ->
  Forall (fun a => F32.is_finite a = true) l ->
  FP.stays v y0 ->
  let r := dynamic_lowpass.run (dynamic_lowpass.mk y0) (map (pair v) l) in
  length (fst r) = length l /\
  Forall (FP.stays v) (fst r) /\
  FP.stays v (dynamic_lowpass.y (snd r)).
Proof.
  induction l as [|a l IH]; intros y0 Hv Hl Hy; cbv zeta.
  - cbn. auto.
  - inversion Hl as [|? ? Ha Hl']; subst.
    cbn [map dynamic_lowpass.run dynamic_lowpass.call dynamic_lowpass.y].
    pose proof (pole_step_stays v y0 a Hv Ha Hy) as Hy'.
    specialize (IH _ Hv Hl' Hy'). cbv zeta in IH.
    destruct (dynamic_lowpass.run _ (map (pair v) l)) as [os st2].
    cbn [fst snd length] in *. destruct IH as (E & Ho & Hf).
    split; [now rewrite E|]. split; [now constructor|assumption].
Qed.

(** X2: a [dynamic_lowpass] seeded with a finite [v] through [operator=]
    reads back [v]; fed the sample [v] with finite coefficients, every
    call returns [v] and leaves [y] at [v], except that a [v] of [-0] may
    come back as [+0]. *)
Theorem dynamic_lowpass_seeded_fixed_point (st : dynamic_lowpass.t)
    (v : F32.float) (l : list F32.float) :
  F32.is_finite v = true ->
  Forall (fun a => F32.is_finite a = true) l ->
  let r := dynamic_lowpass.run (dynamic_lowpass.assign st v) (map (pair v) l) in
  dynamic_lowpass.get (dynamic_lowpass.assign st v) = v /\
  length (fst r) = length l /\
  Forall (FP.stays v) (fst r) /\
  FP.stays v (dynamic_lowpass.y (snd r)) /\
  (v <> S754_zero true -> r = (repeat v (length l), dynamic_lowpass.mk v)).
Proof.
  intros Hv Hl. cbv zeta. split; [reflexivity|].
  split; [|split; [|split]].
  - apply dynamic_lowpass_run_stays with (v := v); try assumption.
    apply stays_refl.
  - apply dynamic_lowpass_run_stays with (v := v); try assumption.
    apply stays_refl.
  - apply dynamic_lowpass_run_stays with (v := v); try assumption.
    apply stays_refl.
  - intros Hnz. now apply dynamic_lowpass_run_fixed.
Qed.

Lemma dynamic_lowpass_seeded_fixed_point_witness :
  dynamic_lowpass.run (dynamic_lowpass.assign dynamic_lowpass.init F32.lit_0_8)
    [(F32.lit_0_8, F32.half); (F32.lit_0_8, F32.two); (F32.lit_0_8, F32.opp F32.one)] =
  ([F32.lit_0_8; F32.lit_0_8; F32.lit_0_8], dynamic_lowpass.mk F32.lit_0_8).
Proof.
  apply (proj2 (proj2 (proj2 (proj2
           (dynamic_lowpass_seeded_fixed_point dynamic_lowpass.init F32.lit_0_8
              [F32.half; F32.two; F32.opp F32.one] eq_refl
              ltac:(repeat constructor)))))).
  discriminate.
Defined.

Lemma SFadd_zero_stays prec emax x s :
  FP.is_finite x = true -> FP.stays x (SFadd prec emax x (S754_zero s)).
Proof.
  destruct x as [[|]|sx| |sx m e], s; cbn; try discriminate; intros _;
    first [now left|now right].
Qed.

(** X3: a zero coefficient freezes a [dynamic_lowpass]: as long as [y] is
    finite and [s - y] does not overflow, the call returns the current [y]
    and leaves the object as it is, except that a [y] of [-0] may become
    [+0]. *)
Theorem dynamic_lowpass_zero_coefficient (st : dynamic_lowpass.t)
    (s : F32.float) (sa : bool) :
  F32.is_finite (dynamic_lowpass.y st) = true ->
  F32.is_finite (F32.sub s (dynamic_lowpass.y st)) = true ->
  let r := dynamic_lowpass.call st s (S754_zero sa) in
  FP.stays (dynamic_lowpass.y st) (fst r) /\
  snd r = dynamic_lowpass.mk (fst r) /\
  (dynamic_lowpass.y st <> S754_zero true -> r = (dynamic_lowpass.y st, st)).
Proof.
  intros Hy Hd. destruct st as [y]. cbn [dynamic_lowpass.y] in *.
  cbv zeta. unfold dynamic_lowpass.call. cbn [dynamic_lowpass.y fst snd].
  unfold F32.add, F32.mul.
  destruct (SFmul_zero_l F32.prec F32.emax _ sa Hd) as [s' ->].
  split; [now apply SFadd_zero_stays|]. split; [reflexivity|].
  intros Hnz. now rewrite SFadd_zero_r.
Qed.

Lemma dynamic_lowpass_zero_coefficient_witness :
  dynamic_lowpass.call (dynamic_lowpass.mk F32.lit_0_8) F32.two F32.zero =
    (F32.lit_0_8, dynamic_lowpass.mk F32.lit_0_8).
Proof.
  apply (proj2 (proj2 (dynamic_lowpass_zero_coefficient
                         (dynamic_lowpass.mk F32.lit_0_8) F32.two false
                         eq_refl eq_refl))).
  discriminate.
Defined.

(** At [-0] the sign can be lost: the stored value comes back as [+0]. *)
Example dynamic_lowpass_negative_zero :
  dynamic_lowpass.call (dynamic_lowpass.mk (S754_zero true)) (S754_zero true) F32.half =
    (F32.zero, dynamic_lowpass.mk F32.zero) /\
  dynamic_lowpass.call (dynamic_lowpass.mk (S754_zero true)) F32.one F32.zero =
    (F32.zero, dynamic_lowpass.mk F32.zero).
Proof. split; reflexivity. Qed.

(** ** dynamic_smoother, continued *)

Lemma dynamic_smoother_after_coefficients l : forall st,
  dynamic_smoother.sense (dynamic_smoother.after st l) = dynamic_smoother.sense st /\
  dynamic_smoother.wc (dynamic_smoother.after st l) = dynamic_smoother.wc st /\
  dynamic_smoother.g0 (dynamic_smoother.after st l) = dynamic_smoother.g0 st.
Proof.
  induction l as [|s l IH]; intros st; [now repeat split|].
  unfold dynamic_smoother.after in *. cbn [fold_left].
  destruct (IH (snd (dynamic_smoother.call st s))) as (-> & -> & ->).
  now repeat split.
Qed.

(** X4: [dynamic_smoother::operator()] never touches [sense], [wc] and
    [g0]: after any number of calls they are what they were, and after
    [base_frequency] they stay what it set. *)
Theorem dynamic_smoother_calls_keep_coefficients
    (tan : F64.float -> F64.float) (pi : F64.float)
    (st : dynamic_smoother.t) (l : list F32.float) (base : F64.float) (sps : Z) :
  let st' := dynamic_smoother.after st l in
  let tuned := dynamic_smoother.after
                 (dynamic_smoother.base_frequency tan pi st base sps) l in
  (dynamic_smoother.sense st' = dynamic_smoother.sense st /\
   dynamic_smoother.wc st' = dynamic_smoother.wc st /\
   dynamic_smoother.g0 st' = dynamic_smoother.g0 st) /\
  (dynamic_smoother.sense tuned = dynamic_smoother.sense st /\
   dynamic_smoother.wc tuned = dynamic_smoother.wc_of base sps /\
   dynamic_smoother.g0 tuned =
     dynamic_smoother.g0_of tan pi (dynamic_smoother.wc_of base sps)).
Proof.
  cbv zeta. split; [apply dynamic_smoother_after_coefficients|].
  exact (dynamic_smoother_after_coefficients l
           (dynamic_smoother.base_frequency tan pi st base sps)).
Qed.

Lemma gain_finite st :
  F32.is_finite (dynamic_smoother.g0 st) = true ->
  F32.is_finite (dynamic_smoother.sense st) = true ->
  F32.is_finite (dynamic_smoother.low1 st) = true ->
  dynamic_smoother.low2 st = dynamic_smoother.low1 st ->
  F32.is_finite (dynamic_smoother.gain st) = true.
Proof.
  intros Hg Hs Hv E.
  unfold dynamic_smoother.gain, dynamic_smoother.unclamped, dynamic_smoother.bandz.
  rewrite E. unfold F32.sub, F32.abs, F32.mul, F32.add.
  rewrite SFsub_diag by assumption. cbn [FP.abs SFabs].
  destruct (SFmul_zero_r F32.prec F32.emax _ false Hs) as [s' ->].
  pose proof (SFadd_zero_finite F32.prec F32.emax _ s' Hg) as Ht.
  unfold F32.min. now destruct (F32.ltb F32.one _).
Qed.

Lemma dynamic_smoother_call_settled st v :
  F32.is_finite (dynamic_smoother.g0 st) = true ->
  F32.is_finite (dynamic_smoother.sense st) = true ->
  F32.is_finite v = true -> v <> S754_zero true ->
  dynamic_smoother.low1 st = v -> dynamic_smoother.low2 st = v ->
  dynamic_smoother.call st v = (v, st).
Proof.
  intros Hg Hs Hv Hnz E1 E2.
  pose proof (gain_finite st Hg Hs ltac:(now rewrite E1) ltac:(congruence)) as Hgain.
  unfold dynamic_smoother.call.
  change (F32.min _ F32.one) with (dynamic_smoother.gain st).
  rewrite E1, E2.
  rewrite (pole_step_fixed v (dynamic_smoother.gain st) Hv Hnz Hgain).
  rewrite (pole_step_fixed v (dynamic_smoother.gain st) Hv Hnz Hgain).
  destruct st; cbn in *; now subst.
Qed.

(** Values that are still [v] differ by a zero. *)
Lemma SFsub_stays prec emax v a b :
  FP.is_finite v = true -> FP.stays v a -> FP.stays v b ->
  exists sg, SFsub prec emax a b = S754_zero sg.
Proof.
  intros Hv Ha Hb.
  destruct v as [[|]|sv| |sv m e]; try discriminate.
  - apply stays_neg_zero in Ha as [sa ->]. apply stays_neg_zero in Hb as [sb ->].
    destruct sa, sb; cbn; eauto.
  - rewrite (stays_exact (S754_zero false) a ltac:(discriminate) Ha).
    rewrite (stays_exact (S754_zero false) b ltac:(discriminate) Hb).
    cbn. eauto.
  - rewrite (stays_exact (S754_finite sv m e) a ltac:(discriminate) Ha).
    rewrite (stays_exact (S754_finite sv m e) b ltac:(discriminate) Hb).
    rewrite SFsub_diag by reflexivity. eauto.
Qed.

(** The update toward a sample that is still [v], from a value that is
    still [v]. *)
Lemma pole_step_stays_both v y s a :
  F32.is_finite v = true -> F32.is_finite a = true ->
  FP.stays v y -> FP.stays v s ->
  FP.stays v (F32.add y (F32.mul a (F32.sub s y))).
Proof.
  intros Hv Ha Hy Hs.
  destruct v as [[|]|sv| |sv m e]; try discriminate.
  - apply stays_neg_zero. apply stays_neg_zero in Hy as [sy ->].
    apply stays_neg_zero in Hs as [ss ->]. now apply pole_step_zeros.
  - rewrite (stays_exact (S754_zero false) s ltac:(discriminate) Hs).
    apply pole_step_stays; [reflexivity|assumption|assumption].
  - rewrite (stays_exact (S754_finite sv m e) s ltac:(discriminate) Hs).
    apply pole_step_stays; [reflexivity|assumption|assumption].
Qed.

Lemma gain_finite_stays st v :
  F32.is_finite (dynamic_smoother.g0 st) = true ->
  F32.is_finite (dynamic_smoother.sense st) = true ->
  F32.is_finite v = true ->
  FP.stays v (dynamic_smoother.low1 st) -> FP.stays v (dynamic_smoother.low2 st) ->
  F32.is_finite (dynamic_smoother.gain st) = true.
Proof.
  intros Hg Hs Hv H1 H2.
  unfold dynamic_smoother.gain, dynamic_smoother.unclamped, dynamic_smoother.bandz.
  unfold F32.sub, F32.abs, F32.mul, F32.add.
  destruct (SFsub_stays F32.prec F32.emax v _ _ Hv H1 H2) as [sg ->].
  cbn [FP.abs SFabs].
  destruct (SFmul_zero_r F32.prec F32.emax _ false Hs) as [s' ->].
  pose proof (SFadd_zero_finite F32.prec F32.emax _ s' Hg) as Ht.
  unfold F32.min. now destruct (F32.ltb F32.one _).
Qed.

Lemma dynamic_smoother_call_stays st v :
  F32.is_finite (dynamic_smoother.g0 st) = true ->
  F32.is_finite (dynamic_smoother.sense st) = true ->
  F32.is_finite v = true ->
  FP.stays v (dynamic_smoother.low1 st) -> FP.stays v (dynamic_smoother.low2 st) ->
  let st' := snd (dynamic_smoother.call st v) in
  fst (dynamic_smoother.call st v) = dynamic_smoother.low2 st /\
  FP.stays v (dynamic_smoother.low1 st') /\ FP.stays v (dynamic_smoother.low2 st') /\
  dynamic_smoother.g0 st' = dynamic_smoother.g0 st /\
  dynamic_smoother.sense st' = dynamic_smoother.sense st.
Proof.
  intros Hg Hs Hv H1 H2. cbv zeta.
  pose proof (gain_finite_stays st v Hg Hs Hv H1 H2) as Hgain.
  unfold dynamic_smoother.call.
  change (F32.min _ F32.one) with (dynamic_smoother.gain st).
  cbn [fst snd dynamic_smoother.low1 dynamic_smoother.low2
       dynamic_smoother.g0 dynamic_smoother.sense].
  assert (Hl1 : FP.stays v
            (F32.add (dynamic_smoother.low1 st)
               (F32.mul (dynamic_smoother.gain st)
                  (F32.sub v (dynamic_smoother.low1 st)))))
    by (apply pole_step_stays; assumption).
  repeat split; try assumption.
  apply pole_step_stays_both; assumption.
Qed.

Lemma dynamic_smoother_run_stays v n : forall st,
  F32.is_finite (dynamic_smoother.g0 st) = true ->
  F32.is_finite (dynamic_smoother.sense st) = true ->
  F32.is_finite v = true ->
  FP.stays v (dynamic_smoother.low1 st) -> FP.stays v (dynamic_smoother.low2 st) ->
  let r := dynamic_smoother.run st (repeat v n) in
  length (fst r) = n /\ Forall (FP.stays v) (fst r) /\
  FP.stays v (dynamic_smoother.low1 (snd r)) /\
  FP.stays v (dynamic_smoother.low2 (snd r)).
Proof.
  induction n as [|n IH]; intros st Hg Hs Hv H1 H2; cbv zeta.
  - cbn. auto.
  - cbn [repeat dynamic_smoother.run].
    destruct (dynamic_smoother_call_stays st v Hg Hs Hv H1 H2)
      as (Eo & H1' & H2' & Eg & Es).
    destruct (dynamic_smoother.call st v) as [o st1]. cbn [fst snd] in *.
    specialize (IH st1 ltac:(now rewrite Eg) ltac:(now rewrite Es) Hv H1' H2').
    cbv zeta in IH.
    destruct (dynamic_smoother.run st1 (repeat v n)) as [os st2].
    cbn [fst snd length] in *. destruct IH as (E & Ho & Hf1 & Hf2).
    split; [now rewrite E|]. split; [|now split].
    constructor; [now rewrite Eo|assumption].
Qed.

Lemma dynamic_smoother_run_settled st v n :
  F32.is_finite (dynamic_smoother.g0 st) = true ->
  F32.is_finite (dynamic_smoother.sense st) = true ->
  F32.is_finite v = true -> v <> S754_zero true ->
  dynamic_smoother.low1 st = v -> dynamic_smoother.low2 st = v ->
  dynamic_smoother.run st (repeat v n) = (repeat v n, st).
Proof.
  intros Hg Hs Hv Hnz E1 E2. induction n as [|n IH]; [reflexivity|].
  cbn [repeat dynamic_smoother.run].
  rewrite dynamic_smoother_call_settled by assumption.
  now rewrite IH.
Qed.

(** X5: a [dynamic_smoother] with finite [g0] and [sense] whose two stages
    hold the same finite value [v] and that is fed [v] returns [v] on every
    call and does not change, except that a [v] of [-0] may come back, and
    be stored, as [+0]. *)
Theorem dynamic_smoother_settled_fixed_point (st : dynamic_smoother.t)
    (v : F32.float) (n : nat) :
  F32.is_finite (dynamic_smoother.g0 st) = true ->
  F32.is_finite (dynamic_smoother.sense st) = true ->
  F32.is_finite v = true ->
  dynamic_smoother.low1 st = v -> dynamic_smoother.low2 st = v ->
  let r := dynamic_smoother.run st (repeat v n) in
  length (fst r) = n /\ Forall (FP.stays v) (fst r) /\
  FP.stays v (dynamic_smoother.low1 (snd r)) /\
  FP.stays v (dynamic_smoother.low2 (snd r)) /\
  (v <> S754_zero true -> r = (repeat v n, st)).
Proof.
  intros Hg Hs Hv E1 E2. cbv zeta.
  destruct (dynamic_smoother_run_stays v n st Hg Hs Hv
              ltac:(rewrite E1; apply stays_refl)
              ltac:(rewrite E2; apply stays_refl)) as (A & B & C & D).
  repeat (split; [assumption|]).
  intros Hnz. now apply dynamic_smoother_run_settled.
Qed.

Lemma dynamic_smoother_settled_fixed_point_witness :
  let st := dynamic_smoother.mk F32.two F32.lit_0_005 F32.half
              F32.lit_0_8 F32.lit_0_8 in
  dynamic_smoother.run st (repeat F32.lit_0_8 3) = (repeat F32.lit_0_8 3, st).
Proof.
  apply (proj2 (proj2 (proj2 (proj2
           (dynamic_smoother_settled_fixed_point
              (dynamic_smoother.mk F32.two F32.lit_0_005 F32.half
                 F32.lit_0_8 F32.lit_0_8)
              F32.lit_0_8 3 eq_refl eq_refl eq_refl eq_refl eq_refl))))).
  discriminate.
Defined.

(** Settled at [-0], the stages lose the sign on the first call. *)
Example dynamic_smoother_negative_zero :
  let st := dynamic_smoother.mk F32.two F32.lit_0_005 F32.half
              (S754_zero true) (S754_zero true) in
  dynamic_smoother.run st (repeat (S754_zero true) 2) =
    ([S754_zero true; F32.zero],
     dynamic_smoother.mk F32.two F32.lit_0_005 F32.half F32.zero F32.zero).
Proof. reflexivity. Qed.

Lemma gain_nonneg st :
  F32.valid (dynamic_smoother.g0 st) = true ->
  F32.leb F32.zero (dynamic_smoother.g0 st) = true ->
  F32.leb F32.zero (dynamic_smoother.sense st) = true ->
  F32.is_nan (dynamic_smoother.unclamped st) = false ->
  F32.leb F32.zero (dynamic_smoother.gain st) = true.
Proof.
  intros Hv H0 Hs Hn.
  pose proof (unclamped_ge_g0 st Hv Hs Hn) as Hge.
  unfold dynamic_smoother.gain, F32.min.
  destruct (F32.ltb F32.one (dynamic_smoother.unclamped st)); [reflexivity|].
  exact (leb_trans _ _ _ H0 Hge).
Qed.

(** X6: with [g0 >= 0] and [sense >= 0], stage 1 of [dynamic_smoother]
    never moves away from the sample: [low1] does not decrease when
    [low1 <= s] and does not increase when [s <= low1] (the result not
    being NaN). *)
Theorem dynamic_smoother_stage1_toward_input (st : dynamic_smoother.t) (s : F32.float) :
  F32.valid (dynamic_smoother.g0 st) = true ->
  F32.leb F32.zero (dynamic_smoother.g0 st) = true ->
  F32.leb F32.zero (dynamic_smoother.sense st) = true ->
  F32.valid (dynamic_smoother.low1 st) = true -> F32.valid s = true ->
  let st' := snd (dynamic_smoother.call st s) in
  F32.is_nan (dynamic_smoother.low1 st') = false ->
  (F32.leb (dynamic_smoother.low1 st) s = true ->
     F32.leb (dynamic_smoother.low1 st) (dynamic_smoother.low1 st') = true) /\
  (F32.leb s (dynamic_smoother.low1 st) = true ->
     F32.leb (dynamic_smoother.low1 st') (dynamic_smoother.low1 st) = true).
Proof.
  intros Hv H0 Hs Hl Hsv st' Hn. subst st'.
  cbn [dynamic_smoother.call snd dynamic_smoother.low1] in *.
  change (F32.min _ F32.one) with (dynamic_smoother.gain st) in *.
  assert (Hu : F32.is_nan (dynamic_smoother.unclamped st) = false).
  { destruct (F32.is_nan (dynamic_smoother.unclamped st)) eqn:E; [|reflexivity].
    exfalso. unfold dynamic_smoother.gain in Hn.
    destruct (dynamic_smoother.unclamped st); try discriminate.
    cbn in Hn. now destruct (dynamic_smoother.low1 st). }
  pose proof (gain_nonneg st Hv H0 Hs Hu) as Hg.
  split; intros Hle.
  - now apply pole_step_up.
  - now apply pole_step_down.
Qed.

Lemma dynamic_smoother_stage1_toward_input_witness :
  let st := dynamic_smoother.mk F32.two F32.lit_0_005 F32.half
              F32.lit_0_005 F32.zero in
  F32.leb (dynamic_smoother.low1 st) F32.one = true /\
  F32.leb (dynamic_smoother.low1 st)
          (dynamic_smoother.low1 (snd (dynamic_smoother.call st F32.one))) = true.
Proof.
  cbv zeta. split; [reflexivity|].
  apply (proj1 (dynamic_smoother_stage1_toward_input
                  (dynamic_smoother.mk F32.two F32.lit_0_005 F32.half
                     F32.lit_0_005 F32.zero) F32.one
                  eq_refl eq_refl eq_refl eq_refl eq_refl eq_refl)).
  reflexivity.
Defined.

(** ** fast_downsample, continued *)

Lemma fast_downsample_run_app T l1 : forall st l2,
  fast_downsample.run T st (l1 ++ l2) =
    (fst (fast_downsample.run T st l1) ++
       fst (fast_downsample.run T (snd (fast_downsample.run T st l1)) l2),
     snd (fast_downsample.run T (snd (fast_downsample.run T st l1)) l2)).
Proof.
  induction l1 as [|[s1 s2] l1 IH]; intros st l2.
  - cbn. now destruct (fast_downsample.run T st l2).
  - cbn [app fast_downsample.run].
    destruct (fast_downsample.call T st s1 s2) as [o st1].
    rewrite IH.
    destruct (fast_downsample.run T st1 l1) as [os st2]. reflexivity.
Qed.

(** X7: every output of [fast_downsample] after the first is the
    quarter of the previous call's [s2] plus half of this call's [s1] plus
    a quarter of its [s2]: it depends on the three latest samples only. *)
Theorem fast_downsample_three_taps (T : Int.int_type) (l : list (Z * Z))
    (a1 a2 b1 b2 : Z) :
  fast_downsample.pairs_in_range T l ->
  Int.in_range T a1 -> Int.in_range T a2 ->
  Int.in_range T b1 -> Int.in_range T b2 ->
  let outs := fst (fast_downsample.run T fast_downsample.init
                     (l ++ [(a1, a2); (b1, b2)])) in
  last outs 0 = Z.shiftr a2 2 + Z.shiftr b1 1 + Z.shiftr b2 2.
Proof.
  intros Hl Ha1 Ha2 Hb1 Hb2 outs. subst outs.
  rewrite fast_downsample_run_app. cbn [fst].
  pose proof (fast_downsample_run_carried T l fast_downsample.init
                (fast_downsample_carried_init T) Hl) as Hc.
  set (st := snd (fast_downsample.run T fast_downsample.init l)) in *.
  cbn [fast_downsample.run].
  rewrite (fast_downsample_call_exact T st a1 a2 Hc Ha1 Ha2).
  rewrite (fast_downsample_call_exact T (fast_downsample.mk (a2 / 4)) b1 b2);
    try assumption.
  - cbn [fast_downsample.x fst].
    set (o1 := fast_downsample.x st + a1 / 2 + a2 / 4).
    change [o1; a2 / 4 + b1 / 2 + b2 / 4] with ([o1] ++ [a2 / 4 + b1 / 2 + b2 / 4]).
    rewrite app_assoc, last_last.
    now rewrite shiftr_1_div, !shiftr_2_div.
  - exists a2. split; [assumption|]. cbn. symmetry. apply shiftr_2_div.
Qed.

Lemma fast_downsample_three_taps_witness :
  last (fst (fast_downsample.run Int.int16_t fast_downsample.init
               ([(100, -7)] ++ [(5, 1000); (-3, 9)]))) 0 = 250 + -2 + 2.
Proof.
  apply (fast_downsample_three_taps Int.int16_t [(100, -7)] 5 1000 (-3) 9);
    try (unfold Int.in_range; cbn; lia).
  repeat constructor; cbn; lia.
Defined.

Lemma fast_downsample_run_envelope T lo hi l : forall st,
  (exists s, Int.in_range T s /\ lo <= s <= hi /\ fast_downsample.x st = s / 4) ->
  Forall (fun p => (Int.in_range T (fst p) /\ lo <= fst p <= hi) /\
                   (Int.in_range T (snd p) /\ lo <= snd p <= hi)) l ->
  Forall (fun o => Int.in_range T o /\ lo - 2 <= o <= hi)
         (fst (fast_downsample.run T st l)).
Proof.
  induction l as [|[s1 s2] l IH]; intros st (s & Hs & Hb & Hx) Hl; [constructor|].
  inversion Hl as [|? ? [[H1 B1] [H2 B2]] Hl']; subst. cbn [fst snd] in *.
  cbn [fast_downsample.run].
  rewrite fast_downsample_call_exact; try assumption.
  2:{ exists s. split; [assumption|]. now rewrite shiftr_2_div. }
  specialize (IH (fast_downsample.mk (s2 / 4))
                 (ex_intro _ s2 (conj H2 (conj B2 eq_refl))) Hl').
  destruct (fast_downsample.run T (fast_downsample.mk (s2 / 4)) l) as [os st2].
  cbn [fst] in *. constructor; [|assumption].
  rewrite Hx. split.
  - apply (fast_downsample_no_wrap T s s1 s2); assumption.
  - clear - Hb B1 B2. Z.div_mod_to_equations. lia.
Qed.

(** X8: when all the samples fed to a fresh [fast_downsample] lie
    between [lo <= 0] and [hi >= 0], no output exceeds [hi], none is more
    than 2 below [lo], and every output is a value of [T]. *)
Theorem fast_downsample_envelope (T : Int.int_type) (lo hi : Z) (l : list (Z * Z)) :
  lo <= 0 <= hi ->
  Forall (fun p => (Int.in_range T (fst p) /\ lo <= fst p <= hi) /\
                   (Int.in_range T (snd p) /\ lo <= snd p <= hi)) l ->
  Forall (fun o => Int.in_range T o /\ lo - 2 <= o <= hi)
         (fst (fast_downsample.run T fast_downsample.init l)).
Proof.
  intros H0 Hl. apply fast_downsample_run_envelope; [|assumption].
  exists 0. split; [|split; [assumption|reflexivity]].
  unfold Int.in_range, Int.min_value, Int.max_value. destruct T; cbn; lia.
Qed.

Lemma fast_downsample_envelope_witness :
  Forall (fun o => Int.in_range Int.int16_t o /\ -7 - 2 <= o <= 1003)
         (fst (fast_downsample.run Int.int16_t fast_downsample.init
                 [(1003, -7); (-7, -7); (-5, 1003)])).
Proof.
  apply (fast_downsample_envelope Int.int16_t (-7) 1003
           [(1003, -7); (-7, -7); (-5, 1003)]); [lia|].
  repeat constructor; cbn; lia.
Defined.

(** ** zero_cross, continued *)

(** X9: the [float] that [zero_cross::operator()] returns is the state
    after the call, as [0.0f] or [1.0f]. *)
Theorem zero_cross_call_returns_state (st : zero_cross.t) (s : F32.float) :
  let r := fst (zero_cross.call st s) in
  let st' := snd (zero_cross.call st s) in
  r = zero_cross.of_bool (zero_cross.state st') /\
  (r = F32.zero \/ r = F32.one).
Proof.
  cbv zeta. unfold zero_cross.call.
  destruct (zero_cross.state st) eqn:Es;
    repeat match goal with |- context [if ?b then _ else _] => destruct b eqn:? end;
    cbn; rewrite ?Es; cbn; split; auto.
Qed.

(** The counter after a call: zero exactly when the call flipped the
    state, unless the increment itself wrapped around. *)
Lemma zero_cross_call_cases st s :
  let st' := snd (zero_cross.call st s) in
  (zero_cross.state st' = zero_cross.state st /\
   zero_cross.count st' = size_t.succ (zero_cross.count st)) \/
  (zero_cross.min_samples st <= zero_cross.count st /\
   zero_cross.count st' = 0 /\
   ((zero_cross.state st = false /\ zero_cross.state st' = true /\
     F32.ltb (zero_cross.hysteresis st) s = true) \/
    (zero_cross.state st = true /\ zero_cross.state st' = false /\
     F32.ltb s (F32.opp (zero_cross.hysteresis st)) = true))).
Proof.
  cbv zeta. unfold zero_cross.call.
  destruct (zero_cross.count st <? zero_cross.min_samples st) eqn:Ec;
    [left; now cbn|].
  apply Z.ltb_ge in Ec. cbn [zero_cross.hysteresis zero_cross.state
                             zero_cross.min_samples].
  destruct (F32.ltb (zero_cross.hysteresis st) s) eqn:E1;
    destruct (zero_cross.state st) eqn:Es;
    destruct (F32.ltb s (F32.opp (zero_cross.hysteresis st))) eqn:E2;
    cbn [andb negb fst snd zero_cross.state zero_cross.count];
    first [ left; split; reflexivity
          | right; split; [assumption|]; split; [reflexivity|];
            first [ left; repeat split; reflexivity
                  | right; repeat split; reflexivity ] ].
Qed.

(** X10: unless the counter is about to wrap around, [edge()] is true
    after a call exactly when that call changed the state. *)
Theorem zero_cross_edge_iff_flip (st : zero_cross.t) (s : F32.float) :
  0 <= zero_cross.count st < size_t.modulus - 1 ->
  let st' := snd (zero_cross.call st s) in
  zero_cross.edge st' = xorb (zero_cross.state st') (zero_cross.state st).
Proof.
  intros Hc. cbv zeta.
  destruct (zero_cross_call_cases st s) as [[E1 E2]|(_ & E & [(A & B & _)|(A & B & _)])];
    unfold zero_cross.edge.
  - rewrite E1, E2, xorb_nilpotent. apply Z.eqb_neq.
    unfold size_t.succ. rewrite Z.mod_small; lia.
  - now rewrite E, A, B.
  - now rewrite E, A, B.
Qed.

Lemma zero_cross_edge_iff_flip_witness :
  let st := zero_cross.mk F32.lit_0_005 2 false 2 in
  zero_cross.edge (snd (zero_cross.call st F32.one)) = true /\
  zero_cross.state (snd (zero_cross.call st F32.one)) = true.
Proof.
  cbv zeta. split; [|reflexivity].
  rewrite (zero_cross_edge_iff_flip (zero_cross.mk F32.lit_0_005 2 false 2) F32.one).
  - reflexivity.
  - unfold size_t.modulus. cbn. lia.
Defined.

(** X11: a call of [zero_cross::operator()] changes the state only past
    the debounce window, to high only on a sample above [+hysteresis] and
    to low only on a sample below [-hysteresis]. *)
Theorem zero_cross_flip_needs_threshold (st : zero_cross.t) (s : F32.float) :
  let st' := snd (zero_cross.call st s) in
  zero_cross.state st' <> zero_cross.state st ->
  zero_cross.min_samples st <= zero_cross.count st /\
  (if zero_cross.state st'
   then F32.ltb (zero_cross.hysteresis st) s = true
   else F32.ltb s (F32.opp (zero_cross.hysteresis st)) = true).
Proof.
  cbv zeta. intros Hne.
  destruct (zero_cross_call_cases st s) as [[E1 _]|(Hp & _ & [(A & B & C)|(A & B & C)])].
  - congruence.
  - rewrite B. auto.
  - rewrite B. auto.
Qed.

Lemma zero_cross_flip_needs_threshold_witness :
  let st := zero_cross.mk F32.lit_0_005 2 true 5 in
  zero_cross.state (snd (zero_cross.call st (F32.opp F32.half))) = false /\
  F32.ltb (F32.opp F32.half) (F32.opp F32.lit_0_005) = true.
Proof.
  cbv zeta. split; [reflexivity|].
  apply (proj2 (zero_cross_flip_needs_threshold
                  (zero_cross.mk F32.lit_0_005 2 true 5) (F32.opp F32.half)
                  ltac:(discriminate))).
Defined.

(** With a hysteresis [>= 0] a sample cannot be above [+h] and below
    [-h] at once. *)
Lemma thresholds_exclusive h s :
  F32.leb F32.zero h = true -> F32.ltb h s = true ->
  F32.ltb s (F32.opp h) = false.
Proof.
  intros Hh H1. destruct (F32.ltb s (F32.opp h)) eqn:H2; [exfalso|reflexivity].
  pose proof (ltb_trans _ _ _ H1 H2) as H.
  destruct (leb_zero_inv h Hh) as [[sg ->]|[->|(m & e & ->)]]; discriminate.
Qed.

Lemma zero_cross_call_past st s :
  zero_cross.min_samples st <= zero_cross.count st ->
  snd (zero_cross.call st s) =
    if F32.ltb (zero_cross.hysteresis st) s && negb (zero_cross.state st) then
      zero_cross.mk (zero_cross.hysteresis st) (zero_cross.min_samples st) true 0
    else if F32.ltb s (F32.opp (zero_cross.hysteresis st)) && zero_cross.state st then
      zero_cross.mk (zero_cross.hysteresis st) (zero_cross.min_samples st) false 0
    else zero_cross.mk (zero_cross.hysteresis st) (zero_cross.min_samples st)
           (zero_cross.state st) (size_t.succ (zero_cross.count st)).
Proof.
  intros Hp. unfold zero_cross.call. apply Z.ltb_ge in Hp. rewrite Hp.
  cbn [zero_cross.hysteresis zero_cross.state zero_cross.min_samples].
  repeat match goal with |- context [if ?b then _ else _] => destruct b end;
    reflexivity.
Qed.

Lemma zero_cross_call_count_nonneg st s :
  0 <= zero_cross.count (snd (zero_cross.call st s)).
Proof.
  destruct (zero_cross_call_cases st s) as [[_ E]|(_ & E & _)]; rewrite E;
    [|lia].
  unfold size_t.succ, size_t.modulus. apply Z.mod_pos_bound. lia.
Qed.

(** X12: with [_min_samples = 0] and a hysteresis [>= 0], [zero_cross] is
    a plain two-threshold comparator: after each call the state is high
    when [s > h], low when [s < -h], and what it was otherwise. *)
Theorem zero_cross_no_debounce_is_schmitt (st : zero_cross.t) (l : list F32.float) :
  zero_cross.min_samples st = 0 -> 0 <= zero_cross.count st ->
  F32.leb F32.zero (zero_cross.hysteresis st) = true ->
  zero_cross.state (zero_cross.after st l) =
    fold_left (zero_cross.schmitt (zero_cross.hysteresis st)) l (zero_cross.state st).
Proof.
  revert st. induction l as [|s l IH]; intros st Hk Hc Hh; [reflexivity|].
  unfold zero_cross.after in *. cbn [fold_left].
  destruct (zero_cross_call_frame st s) as [Eh Em].
  rewrite IH; rewrite ?Eh, ?Em; try assumption;
    [|apply zero_cross_call_count_nonneg].
  f_equal. rewrite zero_cross_call_past by lia.
  unfold zero_cross.schmitt.
  destruct (F32.ltb (zero_cross.hysteresis st) s) eqn:E1.
  - rewrite (thresholds_exclusive _ _ Hh E1).
    now destruct (zero_cross.state st).
  - cbn [andb].
    destruct (F32.ltb s (F32.opp (zero_cross.hysteresis st)));
      now destruct (zero_cross.state st).
Qed.

Lemma zero_cross_no_debounce_is_schmitt_witness :
  let st := zero_cross.mk F32.lit_0_005 0 false 0 in
  zero_cross.state
    (zero_cross.after st [F32.one; F32.zero; F32.opp F32.one; F32.zero]) = false.
Proof.
  cbv zeta.
  rewrite (zero_cross_no_debounce_is_schmitt
             (zero_cross.mk F32.lit_0_005 0 false 0)
             [F32.one; F32.zero; F32.opp F32.one; F32.zero]
             eq_refl ltac:(cbn; lia) eq_refl).
  reflexivity.
Defined.

(** X13: with a negative hysteresis and [_min_samples = 0], samples
    strictly between [h] and [-h] flip the state on every call. *)
Theorem zero_cross_negative_hysteresis_toggles (st : zero_cross.t)
    (l : list F32.float) :
  zero_cross.min_samples st = 0 -> 0 <= zero_cross.count st ->
  Forall (fun s => F32.ltb (zero_cross.hysteresis st) s = true /\
                   F32.ltb s (F32.opp (zero_cross.hysteresis st)) = true) l ->
  zero_cross.state (zero_cross.after st l) =
    if Nat.even (length l) then zero_cross.state st
    else negb (zero_cross.state st).
Proof.
  revert st. induction l as [|s l IH]; intros st Hk Hc Hl; [reflexivity|].
  inversion Hl as [|? ? [H1 H2] Hl']; subst.
  unfold zero_cross.after in *. cbn [fold_left].
  destruct (zero_cross_call_frame st s) as [Eh Em].
  rewrite IH; rewrite ?Eh, ?Em; try assumption;
    [|apply zero_cross_call_count_nonneg].
  rewrite zero_cross_call_past by lia. rewrite H1, H2.
  cbn [length]. rewrite Nat.even_succ, <- Nat.negb_even.
  destruct (Nat.even (length l)), (zero_cross.state st); reflexivity.
Qed.

Lemma zero_cross_negative_hysteresis_toggles_witness :
  let st := zero_cross.mk (F32.opp F32.half) 0 false 0 in
  zero_cross.state (zero_cross.after st [F32.zero; F32.lit_0_005; F32.zero]) = true.
Proof.
  cbv zeta.
  rewrite (zero_cross_negative_hysteresis_toggles
             (zero_cross.mk (F32.opp F32.half) 0 false 0)
             [F32.zero; F32.lit_0_005; F32.zero]
             eq_refl ltac:(cbn; lia) ltac:(repeat constructor)).
  reflexivity.
Defined.

(** ** Constructors *)

(** A sampling rate converts to a finite [double]. *)
Lemma F64_of_Z_finite z :
  0 <= z < 2 ^ 32 -> F64.is_finite (F64.of_Z z) = true.
Proof.
  intros Hz. unfold F64.of_Z. destruct z as [|m|m]; try lia; [reflexivity|].
  cbn [binary_normalize].
  assert (Hb : bounded F64.prec F64.emax (2 ^ 52)%positive 0 = true) by reflexivity.
  destruct (binary_round_le F64.prec F64.emax eq_refl false (2 ^ 52)%positive 0 m 0
              Hb ltac:(lia))
    as [->|(m3 & e3 & -> & _)]; try reflexivity.
  change (Zpos (2 ^ 52)) with (2 ^ 52). change (2 ^ (0 - 0)) with 1. lia.
Qed.

Lemma zero_period_samples sg sps :
  0 <= sps < 2 ^ 32 ->
  F64.to_size_t (F64.mul (S754_zero sg) (F64.of_Z sps)) = Some 0.
Proof.
  intros Hs. pose proof (F64_of_Z_finite sps Hs) as Hf.
  destruct (SFmul_zero_l F64.prec F64.emax (F64.of_Z sps) sg Hf) as [s' E].
  unfold F64.mul. rewrite E. reflexivity.
Qed.

(** X14: a period of zero gives [_min_samples = 0], in the constructor of
    [zero_cross] and in that of [onset], for every 32-bit sampling rate. *)
Theorem zero_period_disables_debounce (schmitt_trigger : Type)
    (schmitt_make : F32.float -> schmitt_trigger)
    (h : F32.float) (sg : bool) (sps : Z) :
  0 <= sps < 2 ^ 32 ->
  zero_cross.make h (S754_zero sg) sps = Some (zero_cross.mk h 0 false 0) /\
  onset_make _ schmitt_make (S754_zero sg) sps = Some (onset_init _ schmitt_make 0).
Proof.
  intros Hs. unfold zero_cross.make, onset_make.
  now rewrite zero_period_samples.
Qed.

Lemma zero_period_disables_debounce_witness :
  zero_cross.make F32.lit_0_005 (S754_zero false) 44100 =
    Some (zero_cross.mk F32.lit_0_005 0 false 0).
Proof.
  apply (proj1 (zero_period_disables_debounce _ schmitt_trigger.make
                  F32.lit_0_005 false 44100 ltac:(lia))).
Defined.

(** ** onset, continued *)

Section OnsetRuns.
Variable schmitt_trigger : Type.
Variable schmitt_make : F32.float -> schmitt_trigger.
Variable schmitt_call :
  schmitt_trigger -> F32.float -> F32.float -> bool * schmitt_trigger.

Implicit Type o : onset schmitt_trigger.

Lemma onset_after_debounce l : forall o,
  0 <= _count o ->
  _count o + Z.of_nat (length l) <= _min_samples o ->
  _min_samples o < size_t.modulus ->
  onset_after schmitt_call o (map (fun p => Call (fst p) (snd p)) l) =
    mk_onset _ (_pk o) (_min_samples o) (_state o)
             (_count o + Z.of_nat (length l)) (_current_peak o).
Proof.
  induction l as [|[s env] l IH]; intros o H0 Hk Hm.
  - cbn. rewrite Z.add_0_r. now destruct o.
  - cbn [length] in Hk. rewrite Nat2Z.inj_succ in Hk.
    unfold onset_after in *. cbn [map fold_left onset_step fst snd].
    rewrite onset_call_debounce by lia. cbn [snd].
    assert (Hs : size_t.succ (_count o) = _count o + 1)
      by (unfold size_t.succ; apply Z.mod_small; lia).
    rewrite Hs, IH; cbn [_count _min_samples _pk _state _current_peak]; try lia.
    f_equal. cbn [length]. lia.
Qed.

Lemma onset_after_latch_monotone ops : forall o,
  onset_latch_ok o -> Forall (fun op => op <> Reset) ops ->
  F32.leb (_current_peak o)
          (_current_peak (onset_after schmitt_call o ops)) = true.
Proof.
  assert (Hrefl : forall o, onset_latch_ok o ->
                    F32.leb (_current_peak o) (_current_peak o) = true).
  { intros o [E|Hlt].
    - now rewrite E.
    - apply SFleb_refl. intros E. rewrite E in Hlt. discriminate. }
  induction ops as [|op ops IH]; intros o Hok Hl; [now apply Hrefl|].
  inversion Hl as [|? ? Hop Hl']; subst.
  unfold onset_after in *. cbn [fold_left].
  pose proof (onset_step_latch_ok _ schmitt_call o op Hok) as Hok'.
  specialize (IH _ Hok' Hl').
  destruct (onset_step_latch _ schmitt_call o op Hok)
    as [E|[(E & _)|(s & env & _ & _ & _ & _ & Hlt)]].
  - now rewrite <- E.
  - congruence.
  - exact (leb_trans _ _ _ (ltb_leb _ _ Hlt) IH).
Qed.

End OnsetRuns.

(** X15: after a transition (counter at zero), the next [_min_samples]
    calls of [onset::operator()] only count: state, latch and peak
    detector stay as they are. *)
Theorem onset_debounce_window (schmitt_trigger : Type)
    (schmitt_call : schmitt_trigger -> F32.float -> F32.float -> bool * schmitt_trigger)
    (o : onset schmitt_trigger) (l : list (F32.float * F32.float)) :
  _count o = 0 ->
  Z.of_nat (length l) <= _min_samples o < size_t.modulus ->
  let o' := onset_after schmitt_call o (map (fun p => Call (fst p) (snd p)) l) in
  _state o' = _state o /\ _current_peak o' = _current_peak o /\
  _pk o' = _pk o /\ _count o' = Z.of_nat (length l).
Proof.
  intros Hc Hk. cbv zeta.
  rewrite onset_after_debounce by lia. rewrite Hc. now cbn.
Qed.

Lemma onset_debounce_window_witness :
  let o := onset_init _ schmitt_trigger.make 2 in
  let o' := onset_after schmitt_trigger.call o
              [Call F32.one F32.one; Call F32.one F32.one] in
  _state o' = false /\ _current_peak o' = F32.zero /\
  _pk o' = _pk o /\ _count o' = 2.
Proof.
  exact (onset_debounce_window _ schmitt_trigger.call
           (onset_init _ schmitt_trigger.make 2)
           [(F32.one, F32.one); (F32.one, F32.one)] eq_refl
           ltac:(unfold size_t.modulus; cbn; lia)).
Defined.

(** X16: [peak_val()] of an [onset] driven from its constructor is never
    negative, never [-0] and never NaN. *)
Theorem onset_peak_val_never_negative (schmitt_trigger : Type)
    (schmitt_make : F32.float -> schmitt_trigger)
    (schmitt_call : schmitt_trigger -> F32.float -> F32.float -> bool * schmitt_trigger)
    (min_samples : Z) (ops : list onset_op) :
  let o := onset_after schmitt_call (onset_init _ schmitt_make min_samples) ops in
  F32.leb F32.zero (onset_peak_val o) = true /\
  F32.is_nan (onset_peak_val o) = false /\
  onset_peak_val o <> S754_zero true.
Proof.
  cbv zeta.
  pose proof (onset_after_latch_ok _ schmitt_call ops _
                (onset_init_latch_ok _ schmitt_make min_samples)) as [E|Hlt];
    unfold onset_peak_val.
  - rewrite E. repeat split. discriminate.
  - split; [now apply ltb_leb|]. split.
    + now apply ltb_not_nan in Hlt.
    + intros E. rewrite E in Hlt. discriminate.
Qed.

(** X17: without [reset()] the latch of an [onset] only grows:
    [peak_val()] after further operations is at least what it was. *)
Theorem onset_latch_rises_without_reset (schmitt_trigger : Type)
    (schmitt_make : F32.float -> schmitt_trigger)
    (schmitt_call : schmitt_trigger -> F32.float -> F32.float -> bool * schmitt_trigger)
    (min_samples : Z) (ops1 ops2 : list onset_op) :
  Forall (fun op => op <> Reset) ops2 ->
  let o1 := onset_after schmitt_call (onset_init _ schmitt_make min_samples) ops1 in
  let o2 := onset_after schmitt_call (onset_init _ schmitt_make min_samples)
              (ops1 ++ ops2) in
  F32.leb (onset_peak_val o1) (onset_peak_val o2) = true.
Proof.
  intros Hl. cbv zeta. unfold onset_after at 2. rewrite fold_left_app.
  apply onset_after_latch_monotone; [|assumption].
  apply onset_after_latch_ok, onset_init_latch_ok.
Qed.

Lemma onset_latch_rises_without_reset_witness :
  F32.leb
    (onset_peak_val (onset_after schmitt_trigger.call
                       (onset_init _ schmitt_trigger.make 0) [Call F32.half F32.half]))
    (onset_peak_val (onset_after schmitt_trigger.call
                       (onset_init _ schmitt_trigger.make 0)
                       ([Call F32.half F32.half] ++
                        [Call F32.zero F32.one; PeakVal; Call F32.one F32.one])))
  = true.
Proof.
  apply (onset_latch_rises_without_reset _ schmitt_trigger.make schmitt_trigger.call 0
           [Call F32.half F32.half]
           [Call F32.zero F32.one; PeakVal; Call F32.one F32.one]).
  repeat constructor; discriminate.
Defined.

(** X18: [reset()] re-arms an [onset]: quiet, past the window and with the
    peak detector firing, any sample above zero starts an onset and
    becomes the latch after [reset()], while without it a sample not above
    the old latch leaves the detector quiet and the latch as it was. *)
Theorem onset_reset_rearms (schmitt_trigger : Type)
    (schmitt_call : schmitt_trigger -> F32.float -> F32.float -> bool * schmitt_trigger)
    (o : onset schmitt_trigger) (s env : F32.float) :
  _state o = false -> _min_samples o <= _count o ->
  fst (peak_call _ schmitt_call (_pk o) s env) = true ->
  F32.ltb F32.zero s = true ->
  let kept := snd (onset_call schmitt_call o s env) in
  let rearmed := snd (onset_call schmitt_call (onset_reset o) s env) in
  onset_peak_val (onset_reset o) = F32.zero /\
  (_state rearmed = true /\ onset_peak_val rearmed = s) /\
  (F32.ltb (_current_peak o) s = false ->
     _state kept = false /\ onset_peak_val kept = _current_peak o).
Proof.
  intros Hq Hp Hpk Hs. cbv zeta. split; [reflexivity|].
  rewrite (onset_call_past _ schmitt_call (onset_reset o) s env Hp).
  rewrite (onset_call_past _ schmitt_call o s env Hp).
  cbn [onset_reset _pk _state _min_samples _count _current_peak].
  rewrite Hq, Hpk, Hs. cbn [negb andb snd _state onset_peak_val _current_peak].
  split; [now split|].
  intros Hlt. rewrite Hlt. now cbn.
Qed.

Lemma onset_reset_rearms_witness :
  let o := mk_onset _ (peak_make _ schmitt_trigger.make F32.lit_0_8 F32.lit_0_005)
             0 false 3 F32.one in
  _state (snd (onset_call schmitt_trigger.call o F32.lit_0_8 F32.half)) = false /\
  _state (snd (onset_call schmitt_trigger.call (onset_reset o)
                 F32.lit_0_8 F32.half)) = true.
Proof.
  cbv zeta.
  pose proof (onset_reset_rearms _ schmitt_trigger.call
                (mk_onset _ (peak_make _ schmitt_trigger.make F32.lit_0_8 F32.lit_0_005)
                   0 false 3 F32.one)
                F32.lit_0_8 F32.half eq_refl ltac:(cbn; lia) eq_refl eq_refl)
    as (_ & [H1 _] & H2).
  split; [exact (proj1 (H2 eq_refl))|exact H1].
Defined.

(** X19: a settled [dynamic_smoother] (both stages at the same finite
    value, finite [sense] and [g0]) computes its gain as [g0] clamped to
    one: it runs at its base gain, except that a [g0] of [-0] may give a
    gain of [+0]. *)
Theorem dynamic_smoother_settled_gain (st : dynamic_smoother.t) :
  F32.is_finite (dynamic_smoother.g0 st) = true ->
  F32.is_finite (dynamic_smoother.sense st) = true ->
  F32.is_finite (dynamic_smoother.low1 st) = true ->
  dynamic_smoother.low2 st = dynamic_smoother.low1 st ->
  FP.stays (if F32.ltb F32.one (dynamic_smoother.g0 st) then F32.one
            else dynamic_smoother.g0 st)
           (dynamic_smoother.gain st) /\
  (dynamic_smoother.g0 st <> S754_zero true ->
   dynamic_smoother.gain st =
     if F32.ltb F32.one (dynamic_smoother.g0 st) then F32.one
     else dynamic_smoother.g0 st).
Proof.
  intros Hg Hs Hv E.
  unfold dynamic_smoother.gain, dynamic_smoother.unclamped, dynamic_smoother.bandz.
  rewrite E. unfold F32.sub, F32.abs, F32.mul, F32.add.
  rewrite SFsub_diag by assumption. cbn [FP.abs SFabs].
  destruct (SFmul_zero_r F32.prec F32.emax _ false Hs) as [s' ->].
  split.
  - destruct (SFadd_zero_stays F32.prec F32.emax _ s' Hg) as [->|[E0 ->]].
    + apply stays_refl.
    + rewrite E0. now right.
  - intros Hnz. now rewrite SFadd_zero_r.
Qed.

Lemma dynamic_smoother_settled_gain_witness :
  dynamic_smoother.gain
    (dynamic_smoother.mk F32.two F32.lit_0_005 F32.half F32.lit_0_8 F32.lit_0_8)
  = F32.half.
Proof.
  apply (proj2 (dynamic_smoother_settled_gain
                  (dynamic_smoother.mk F32.two F32.lit_0_005 F32.half
                     F32.lit_0_8 F32.lit_0_8)
                  eq_refl eq_refl eq_refl eq_refl)).
  discriminate.
Defined.
